(** * NeuralNetwork: the activation unit [Node] and the gradient trainer

    A shallow embedding of [Node.py] and [GradientDescent.py].

    Numbers.  Python floats are modelled as the real numbers of the
    Standard Library, with the exceptions of float arithmetic: a division
    raises [ZeroDivisionError] on a zero divisor, and a power [x ** y]
    raises [OverflowError] when its value is beyond the largest float.
    Rounding, underflow, and the infinities and NaN that [+], [*] and [/]
    produce without raising are outside the model.

    Objects.  A [Node] object lives in a store ([gmap addr Node]) and is
    referred to by its address, so that [children], the layer table of the
    trainer and the value returned by [mutate] are references, as in
    Python.  The [weights] and [biases] lists are owned by their unit and
    are fields of the record.

    Effects.  Methods are computations in a state-and-exception monad:
    a raised exception keeps the state reached so far. *)

From Stdlib Require Import Reals Lra Lia ZArith.
From stdpp Require Import base option list gmap.

Local Open Scope R_scope.

(** ** Exceptions and results *)

Inductive exn : Type :=
| ValueError         (* raised by [Node.__init__] *)
| ZeroDivisionError  (* a division by zero *)
| IndexError         (* a list index out of range *)
| OverflowError      (* a power beyond the float range *)
| RecursionError     (* the recursion depth is exhausted *)
| BadRef.            (* an address outside the store; no Python reference is *)

Inductive result (A : Type) : Type :=
| Ok (a : A)
| Raise (e : exn).
Arguments Ok {A} a.
Arguments Raise {A} e.

(** ** The state-and-exception monad *)

#[global] Instance result_ret : MRet result := fun A a => Ok a.

#[global] Instance result_bind : MBind result := fun A B k m =>
  match m with
  | Ok a => k a
  | Raise e => Raise e
  end.

Definition M (St A : Type) : Type := St -> result A * St.

#[global] Instance M_ret {St} : MRet (M St) := fun A a s => (Ok a, s).

#[global] Instance M_bind {St} : MBind (M St) := fun A B k m s =>
  match m s with
  | (Ok a, s') => k a s'
  | (Raise e, s') => (Raise e, s')
  end.

#[global] Instance M_throw {St} : MThrow exn (M St) := fun A e s => (Raise e, s).

Definition get {St} : M St St := fun s => (Ok s, s).
Definition modify {St} (f : St -> St) : M St unit := fun s => (Ok tt, f s).
Definition of_result {St A} (r : result A) : M St A := fun s => (r, s).

(** [for x in l: body x] *)
Fixpoint for_each {St A} (l : list A) (body : A -> M St unit) : M St unit :=
  match l with
  | [] => mret tt
  | x :: l' => body x;; for_each l' body
  end.

(** [range(n)] for a Python integer [n] *)
Definition range (n : Z) : list nat := seq 0 (Z.to_nat n).

(** [l[i]] for a non-negative index *)
Definition index_list {A} (l : list A) (i : nat) : result A :=
  match l !! i with
  | Some x => Ok x
  | None => Raise IndexError
  end.

(** ** Arithmetic of the source *)

(** [math.e] *)
Definition e : R := exp 1.

(** The largest float, [sys.float_info.max] *)
Definition FLOAT_MAX : R := (2 - / 2 ^ 52) * 2 ^ 1023.

(** [x ** y] for a positive base and a float exponent *)
Definition pow_float (x y : R) : result R :=
  if Rlt_dec FLOAT_MAX (Rpower x y) then Raise OverflowError else Ok (Rpower x y).

(** [x ** n] for a float base and a non-negative integer exponent *)
Definition pow_int (x : R) (n : nat) : result R :=
  if Rlt_dec FLOAT_MAX (Rabs (x ^ n)) then Raise OverflowError else Ok (x ^ n).

(** [x / y] *)
Definition pydiv (x y : R) : result R :=
  if Req_dec_T y 0 then Raise ZeroDivisionError else Ok (x / y).

(** ** [class Node] *)

Definition addr := nat.

Record Node : Type := mkNode {
  numInputs : nat;
  weights : list R;
  biases : list R;
  children : list addr;
  sigmoid_value : R;
  value : R
}.

Definition MIN_WEIGHT : R := -3.
Definition MAX_WEIGHT : R := 3.
Definition MIN_BIAS : R := -1.
Definition MAX_BIAS : R := 1.
Definition DEFAULT_SIGMOID_VALUE : R := 0.1.
Definition MAX_MUTATION : R := 0.5.

Definition set_weights (ws : list R) (self : Node) : Node :=
  mkNode (numInputs self) ws (biases self) (children self)
         (sigmoid_value self) (value self).
Definition set_biases (bs : list R) (self : Node) : Node :=
  mkNode (numInputs self) (weights self) bs (children self)
         (sigmoid_value self) (value self).
Definition set_children (cs : list addr) (self : Node) : Node :=
  mkNode (numInputs self) (weights self) (biases self) cs
         (sigmoid_value self) (value self).
Definition set_value (v : R) (self : Node) : Node :=
  mkNode (numInputs self) (weights self) (biases self) (children self)
         (sigmoid_value self) v.

(** [Node.__init__]: the length check comes before any field other than
    [numInputs] is set; on a mismatch no object is produced. *)
Definition Node_init (ws bs : list R) (cs : list addr) (sv : R) : result Node :=
  let n := length ws in
  if decide (length ws ≠ length bs) then Raise ValueError
  else Ok (mkNode n ws bs cs sv 0).

(** [Node.sigmoid] *)
Definition sigmoid (self : Node) (num : R) : result R :=
  p ← pow_float e (-1 * num * sigmoid_value self);
  d ← pydiv 1 (1 + p);
  pydiv d (INR (numInputs self)).

(** [map(f, ws, bs, ns)] consumed from left to right: it stops with the
    shortest list, and at the first exception. *)
Fixpoint map3 {A} (f : R -> R -> R -> result A) (ws bs ns : list R)
  : result (list A) :=
  match ws, bs, ns with
  | weight :: ws', bias :: bs', num :: ns' =>
      x ← f weight bias num;
      xs ← map3 f ws' bs' ns';
      mret (x :: xs)
  | _, _, _ => mret []
  end.

(** [sum(xs)]: the running total starts at 0 and adds from the left *)
Definition py_sum (xs : list R) : R := fold_left Rplus xs 0.

(** [Node.__call__] *)
Definition Node_call (nums : list R) : M Node R :=
  self ← get;
  xs ← of_result (map3 (fun weight bias num => sigmoid self (weight * num + bias))
                       (weights self) (biases self) nums);
  modify (set_value (py_sum xs));;
  self ← get;
  mret (value self).

(** [Node.gradientHelper] *)
Definition gradientHelper (self : Node) (weight bias num goal : R)
  : result (R * R) :=
  let a := weight * num + bias in
  p ← pow_float e (- a * sigmoid_value self);
  let b := p + 1 in
  c ← pydiv 1 (b * INR (numInputs self));
  d ← pow_int (c - goal) 2;
  let numerator := 2 * sigmoid_value self * b * (c - goal) in
  b2 ← pow_int b 2;
  partialDerivativeRespectBias ← pydiv numerator (b2 * INR (numInputs self));
  let partialDerivativeRespectWeight := partialDerivativeRespectBias * num in
  mret (partialDerivativeRespectWeight, partialDerivativeRespectBias).

(** [self.weights[index] -= x] and [self.biases[index] -= x] *)
Definition weights_isub (index : nat) (x : R) : M Node unit := fun self =>
  match weights self !! index with
  | Some w => (Ok tt, set_weights (<[index := w - x]> (weights self)) self)
  | None => (Raise IndexError, self)
  end.
Definition biases_isub (index : nat) (x : R) : M Node unit := fun self =>
  match biases self !! index with
  | Some b => (Ok tt, set_biases (<[index := b - x]> (biases self)) self)
  | None => (Raise IndexError, self)
  end.

(** The loop of [Node.gradient].  [enumerate(zip(self.weights,
    self.biases, nums))] reads position [index] of the three lists when
    the round starts, the first two from the current state of the unit,
    and ends with the shortest of them. *)
Fixpoint gradient_loop (index : nat) (rest : list R) (length : nat)
    (goal learnRate : R) : M Node unit :=
  match rest with
  | [] => mret tt
  | num :: rest' =>
      self ← get;
      match weights self !! index, biases self !! index with
      | Some weight, Some bias =>
          perExample ← of_result (pydiv goal (INR length));
          '(weightChange, biasChange) ←
            of_result (gradientHelper self weight bias num perExample);
          let weightChange := weightChange * learnRate in
          let biasChange := biasChange * learnRate in
          weights_isub index weightChange;;
          biases_isub index biasChange;;
          gradient_loop (S index) rest' length goal learnRate
      | _, _ => mret tt
      end
  end.

(** [Node.gradient] *)
Definition gradient (nums : list R) (goal learnRate : R) : M Node unit :=
  let length := length nums in
  gradient_loop 0 nums length goal learnRate.

(** [Node.loss] *)
Definition loss (weight bias num goal : R) : result R :=
  pow_int (weight * num + bias - goal) 2.

(** [Node.setChildren] *)
Definition setChildren (newChildren : list addr) : M Node unit :=
  modify (set_children newChildren).

(** [Node.isInChildren]: [other in self.children] compares references,
    [Node] defining no equality of its own. *)
Definition isInChildren (self : Node) (other : addr) : bool :=
  bool_decide (other ∈ children self).

(** [Node.asDict]: the two entries of the dictionary, in key order
    ["Weights"], ["Biases"]. *)
Definition asDict (self : Node) : list R * list R :=
  (weights self, biases self).

(** ** The object store, the random source and the trace *)

(** What the program prints through [print], and the calls the trainer
    makes, in order (the calls are recorded for the statements about
    which calls happen; the source does not print them). *)
Inductive event : Type :=
| Print_current_iteration_value (v : R)
| Print_value_at_iteration (iterationCounter : nat) (v : R)
| Print_reached (percent : R) (iterationCounter : nat)
| Call_forward (inputs : list R)
| Call_stepGeneration (inputs : list R) (goal : R)
| Call_gradient (node : addr) (nums : list R) (goal learnRate : R).

Record world : Type := mkWorld {
  store : gmap addr Node;
  (** the values that the successive calls of [random.random()] return *)
  random : nat -> R;
  trace : list event
}.

Definition set_store (f : gmap addr Node -> gmap addr Node) (w : world) : world :=
  mkWorld (f (store w)) (random w) (trace w).

Definition log (ev : event) : M world unit :=
  modify (fun w => mkWorld (store w) (random w) (trace w ++ [ev])).

(** Reading the object behind a reference *)
Definition read (a : addr) : M world Node := fun w =>
  match store w !! a with
  | Some node => (Ok node, w)
  | None => (Raise BadRef, w)
  end.

(** A method call [a.m(...)]: [m] runs on the object at [a], and what it
    did to the object stays done when it raises. *)
Definition on_node {A} (a : addr) (m : M Node A) : M world A := fun w =>
  match store w !! a with
  | Some node =>
      let '(r, node') := m node in
      (r, set_store (insert a node') w)
  | None => (Raise BadRef, w)
  end.

(** [random.uniform(a, b)], which is [a + (b - a) * random()] *)
Definition uniform (a b : R) : M world R := fun w =>
  (Ok (a + (b - a) * random w 0%nat),
   mkWorld (store w) (fun k => random w (S k)) (trace w)).

(** [self.weights[index] *= x] and [self.biases[index] *= x] *)
Definition weights_imul (index : nat) (x : R) : M Node unit := fun self =>
  match weights self !! index with
  | Some w => (Ok tt, set_weights (<[index := w * x]> (weights self)) self)
  | None => (Raise IndexError, self)
  end.
Definition biases_imul (index : nat) (x : R) : M Node unit := fun self =>
  match biases self !! index with
  | Some b => (Ok tt, set_biases (<[index := b * x]> (biases self)) self)
  | None => (Raise IndexError, self)
  end.

(** [Node.mutate]; the result is the reference [self] *)
Definition mutate (self : addr) : M world addr :=
  node ← read self;
  for_each (seq 0 (length (weights node))) (fun index =>
    change ← uniform (- MAX_MUTATION) MAX_MUTATION;
    on_node self (weights_imul index (1 - change)));;
  node ← read self;
  for_each (seq 0 (length (biases node))) (fun index =>
    change ← uniform (- MAX_MUTATION) MAX_MUTATION;
    on_node self (biases_imul index (1 - change)));;
  mret self.

(** Allocation of a new object *)
Definition alloc (node : Node) : M world addr := fun w =>
  let a := fresh (dom (store w)) in
  (Ok a, set_store (insert a node) w).

(** The expression [Node(weights, biases, children, sigmoid_value)] *)
Definition Node_new (ws bs : list R) (cs : list addr) (sv : R) : M world addr :=
  node ← of_result (Node_init ws bs cs sv);
  alloc node.

(** [Node.__deepcopy__]: the lists are copied, the children list is the
    one of the original. *)
Definition Node_deepcopy (self : addr) : M world addr :=
  node ← read self;
  let weightsCopy := weights node in
  let biasesCopy := biases node in
  Node_new weightsCopy biasesCopy (children node) (sigmoid_value node).

(** [randomNode] *)
Definition randomNode (numInputs : Z) : M world addr :=
  let draw (lo hi : R) : M world (list R) :=
    fold_right (fun _ rest => x ← uniform lo hi; xs ← rest; mret (x :: xs))
               (mret []) (range numInputs) in
  randomWeights ← draw MIN_WEIGHT MAX_WEIGHT;
  randomBiases ← draw MIN_BIAS MAX_BIAS;
  let defaultSigmoid := DEFAULT_SIGMOID_VALUE in
  let emptyChildren := [] in
  Node_new randomWeights randomBiases emptyChildren defaultSigmoid.

(** [any(map(f, l))]: the children are tried in order, up to the first
    [True] or the first exception. *)
Fixpoint py_any (f : addr -> result bool) (l : list addr) : result bool :=
  match l with
  | [] => Ok false
  | child :: l' =>
      match f child with
      | Ok true => Ok true
      | Ok false => py_any f l'
      | Raise err => Raise err
      end
  end.

(** [Node.isConnectedTo], a recursive descent without memory of the units
    already seen.  [depth] is the number of nested calls that the
    interpreter still allows; when it is used up, [RecursionError] is
    raised. *)
Fixpoint isConnectedTo (depth : nat) (st : gmap addr Node) (self other : addr)
  : result bool :=
  match depth with
  | O => Raise RecursionError
  | S depth' =>
      match st !! self with
      | None => Raise BadRef
      | Some node =>
          if isInChildren node other then Ok true
          else py_any (fun child => isConnectedTo depth' st child other)
                      (children node)
      end
  end.

(** ** [class GradientNetwork] *)

(** The fields of the trainer.  [nodes], [nodesInLayer] and [net_value]
    (the attribute [value] of the network) are set up by the constructor
    of the base class [NeuralNetwork]. *)
Record GradientNetwork : Type := mkGradientNetwork {
  nodes : list (list addr);
  nodesInLayer : Z;
  net_value : R;
  maxIter : Z;
  learnRate : R;
  size : Z
}.

Definition set_net_value (v : R) (self : GradientNetwork) : GradientNetwork :=
  mkGradientNetwork (nodes self) (nodesInLayer self) v (maxIter self)
                    (learnRate self) (size self).

(** [GradientNetwork.__init__], after [super().__init__] has produced
    [nodes0], [width0] and [value0]. *)
Definition GradientNetwork_init (nodes0 : list (list addr)) (width0 : Z)
    (value0 : R) (nodesInLayer numLayers maxIter : Z) (learnRate : R)
  : GradientNetwork :=
  mkGradientNetwork nodes0 width0 value0 maxIter learnRate
                    (nodesInLayer * numLayers).

(** The state of a run of the trainer: the trainer object and the world *)
Definition tstate : Type := GradientNetwork * world.

Definition in_world {A} (m : M world A) : M tstate A := fun s =>
  let '(r, w') := m (snd s) in (r, (fst s, w')).

Definition this : M tstate GradientNetwork := fun s => (Ok (fst s), s).

(** A computation on the network object and the units, run in a state of
    the trainer *)
Definition in_objects {A} (m : M (GradientNetwork * gmap addr Node) A) : M tstate A :=
  fun s =>
    let '(r, (self', store')) := m (fst s, store (snd s)) in
    (r, (self', mkWorld store' (random (snd s)) (trace (snd s)))).

(** [GradientNetwork.stepGeneration] *)
Definition stepGeneration (inputs : list R) (goal : R) : M tstate unit :=
  self ← this;
  for_each (range (nodesInLayer self)) (fun index =>
    self ← this;
    layer ← of_result (index_list (nodes self) 0);
    node ← of_result (index_list layer index);
    g ← of_result (pydiv goal (IZR (size self)));
    in_world (log (Call_gradient node inputs g (learnRate self)));;
    in_world (on_node node (gradient inputs g (learnRate self)))).

Definition MAXIMUM_ITERATION : nat := 1000.

Section Trainer.

(** The forward pass [self(inputs)] of the network, [NeuralNetwork.__call__],
    which belongs to the base class: it evaluates the units and sets the
    [value] of the network, so it acts on the network object and on the
    units of the store. *)
Variable NeuralNetwork_call : list R -> M (GradientNetwork * gmap addr Node) unit.

Definition forward (inputs : list R) : M tstate unit :=
  in_world (log (Call_forward inputs));;
  in_objects (NeuralNetwork_call inputs).

Definition step (inputs : list R) (goal : R) : M tstate unit :=
  in_world (log (Call_stepGeneration inputs goal));;
  stepGeneration inputs goal.

(** [GradientNetwork.evolve] *)
Definition evolve (inputs : list R) (goal : R) : M tstate unit :=
  self ← this;
  for_each (range (maxIter self)) (fun _ =>
    forward inputs;;
    self ← this;
    in_world (log (Print_current_iteration_value (net_value self)));;
    step inputs goal).

(** The [while] loop of [evolveTillTolerance].  [left] is
    [MAXIMUM_ITERATION - iterationCounter], so that [left = 0] is the
    failure of the loop condition; the result is the final
    [iterationCounter]. *)
Fixpoint evolve_loop (left iterationCounter : nat) (inputs : list R)
    (goal tolerance : R) : M tstate nat :=
  match left with
  | O => mret iterationCounter
  | S left' =>
      self ← this;
      if Rlt_dec (Rabs (net_value self - goal)) (Rabs (tolerance * goal)) then
        in_world (log (Print_value_at_iteration iterationCounter (net_value self)));;
        mret iterationCounter
      else
        forward inputs;;
        self ← this;
        (if decide (iterationCounter mod 5 = 0)%nat then
           in_world (log (Print_value_at_iteration iterationCounter (net_value self)))
         else mret tt);;
        step inputs goal;;
        evolve_loop left' (S iterationCounter) inputs goal tolerance
  end.

(** [GradientNetwork.evolveTillTolerance] *)
Definition evolveTillTolerance (inputs : list R) (goal tolerance : R)
  : M tstate unit :=
  let tolerance := if Rle_dec tolerance 0 then 0.1 else tolerance in
  iterationCounter ← evolve_loop MAXIMUM_ITERATION 0 inputs goal tolerance;
  self ← this;
  percent ← of_result (pydiv ((net_value self - goal) * 100) goal);
  in_world (log (Print_reached (Rabs percent) iterationCounter)).

End Trainer.

(** * Vocabulary of the statements *)

(** ** Units *)

(** The invariant of a unit: [len(weights) == len(biases) == numInputs] *)
Definition wf_Node (self : Node) : Prop :=
  length (weights self) = numInputs self /\ length (biases self) = numInputs self.

(** The activation as the specification writes it:
    [1 / (1 + e^(-x * sigmoidCoefficient)) / inputCount]. *)
Definition sigmoid_formula (sigmoidCoefficient : R) (inputCount : nat) (x : R) : R :=
  1 / (1 + exp (- x * sigmoidCoefficient)) / INR inputCount.

(** The sum of [f i] over the indices [i < n] *)
Fixpoint sum_below (n : nat) (f : nat -> R) : R :=
  match n with
  | O => 0
  | S k => sum_below k f + f k
  end.

(** The power that [sigmoid] computes for the argument [x] is a float *)
Definition sigmoid_in_range (sigmoidCoefficient x : R) : Prop :=
  exp (- x * sigmoidCoefficient) <= FLOAT_MAX.

(** The powers that [__call__] computes for the inputs [nums] are floats *)
Definition call_in_range (self : Node) (nums : list R) : Prop :=
  forall i, (i < length nums)%nat -> (i < numInputs self)%nat ->
    sigmoid_in_range (sigmoid_value self)
      (nth i (weights self) 0 * nth i nums 0 + nth i (biases self) 0).

(** ** The gradient *)

(** The three powers that [gradientHelper] computes are floats *)
Definition helper_in_range (sigmoidCoefficient : R) (inputCount : nat)
    (weight bias num perExampleGoal : R) : Prop :=
  let a := weight * num + bias in
  let b := exp (- a * sigmoidCoefficient) + 1 in
  let c := 1 / (b * INR inputCount) in
  exp (- a * sigmoidCoefficient) <= FLOAT_MAX
  /\ (c - perExampleGoal) ^ 2 <= FLOAT_MAX
  /\ b ^ 2 <= FLOAT_MAX.

(** The powers that [gradient] computes for the inputs [nums] are floats *)
Definition gradient_in_range (self : Node) (nums : list R) (goal : R) : Prop :=
  forall i, (i < length nums)%nat -> (i < numInputs self)%nat ->
    helper_in_range (sigmoid_value self) (numInputs self)
      (nth i (weights self) 0) (nth i (biases self) 0) (nth i nums 0)
      (goal / INR (length nums)).

(** The partial derivatives as the specification writes them *)
Definition dB_formula (sigmoidCoefficient : R) (inputCount : nat)
    (weight bias num perExampleGoal : R) : R :=
  let a := weight * num + bias in
  let b := exp (- a * sigmoidCoefficient) + 1 in
  let c := 1 / (b * INR inputCount) in
  2 * sigmoidCoefficient * b * (c - perExampleGoal) / (b ^ 2 * INR inputCount).

Definition dW_formula (sigmoidCoefficient : R) (inputCount : nat)
    (weight bias num perExampleGoal : R) : R :=
  dB_formula sigmoidCoefficient inputCount weight bias num perExampleGoal * num.

(** The unit after the round of the loop at [index] *)
Definition gradient_round (index : nat) (weight bias num perExampleGoal learnRate : R)
    (self : Node) : Node :=
  set_biases
    (<[index := bias - dB_formula (sigmoid_value self) (numInputs self)
                         weight bias num perExampleGoal * learnRate]> (biases self))
    (set_weights
       (<[index := weight - dW_formula (sigmoid_value self) (numInputs self)
                             weight bias num perExampleGoal * learnRate]> (weights self))
       self).

(** The quantity [d] of [gradientHelper]: the squared error of the
    activation of one input, as a function of the arguments. *)
Definition squared_error (self : Node) (weight bias num goal : R) : R :=
  let a := weight * num + bias in
  let b := Rpower e (- a * sigmoid_value self) + 1 in
  let c := 1 / (b * INR (numInputs self)) in
  (c - goal) ^ 2.

(** The derivative of [squared_error] in [bias], in closed form *)
Definition analytic_dB (self : Node) (weight bias num goal : R) : R :=
  let a := weight * num + bias in
  let b := exp (- a * sigmoid_value self) + 1 in
  let c := 1 / (b * INR (numInputs self)) in
  2 * sigmoid_value self * (b - 1) * (c - goal) / (b ^ 2 * INR (numInputs self)).

(** Close a [derivable_pt_lim] goal with a hypothesis that differs from it
    in the value of the derivative only, leaving the equation of the two
    values. *)
Ltac replace_with_goal l H :=
  match goal with
  | |- derivable_pt_lim _ _ ?l' => replace l' with l; [exact H |]
  end.

(** ** The children graph *)

(** The number of elements of a finite set ([size] is a field of the
    trainer in this file). *)
Local Abbreviation card := (stdpp.base.size).

(** [y] is in the children list of the unit at [x] *)
Definition edge (st : gmap addr Node) (x y : addr) : Prop :=
  exists node, st !! x = Some node /\ y ∈ children node.

(** Every reference in a children list refers to a unit of the store *)
Definition closed (st : gmap addr Node) : Prop :=
  forall x y, edge st x y -> is_Some (st !! y).

(** No unit that [self] reaches (in zero or more steps) reaches itself
    in one or more steps. *)
Definition acyclic_from (st : gmap addr Node) (self : addr) : Prop :=
  forall x, rtc (edge st) self x -> ~ tc (edge st) x x.

(** A chain of three units and a unit apart: 0 -> 1 -> 2, and 3 *)
Definition unit_with (cs : list addr) : Node := mkNode 0 [] [] cs 0 0.
Definition chain_store : gmap addr Node :=
  <[0%nat := unit_with [1%nat]]> (<[1%nat := unit_with [2%nat]]>
    (<[2%nat := unit_with []]> (<[3%nat := unit_with []]> ∅))).

(** Two units that are each other's child *)
Definition cyclic_store : gmap addr Node :=
  <[0%nat := unit_with [1%nat]]> (<[1%nat := unit_with [0%nat]]> ∅).

(** ** Mutation and shape *)

(** The fraction that the [k]-th call of [uniform(-MAX_MUTATION,
    MAX_MUTATION)] yields, [rnd] being the values of [random()] *)
Definition fraction (rnd : nat -> R) (k : nat) : R :=
  - MAX_MUTATION + (MAX_MUTATION - - MAX_MUTATION) * rnd k.

(** The list [l] with the entries at the positions [k <= i < k + m]
    multiplied by [1 - fraction], the entry at [k + j] using draw [j] *)
Definition scale_range (k m : nat) (rnd : nat -> R) (l : list R) : list R :=
  imap (fun i x => if decide (k <= i < k + m)%nat
                   then x * (1 - fraction rnd (i - k)) else x) l.

(** The unit after [mutate], [rnd] being the values of [random()]: the
    weights use the first draws, the biases the draws after them. *)
Definition mutated (rnd : nat -> R) (node : Node) : Node :=
  set_biases
    (scale_range 0 (length (biases node))
                 (fun j => rnd (length (weights node) + j)%nat) (biases node))
    (set_weights (scale_range 0 (length (weights node)) rnd (weights node)) node).

(** [after] has the [numInputs] of [before] and lists of the same lengths *)
Definition same_shape (before after : Node) : Prop :=
  numInputs after = numInputs before
  /\ length (weights after) = length (weights before)
  /\ length (biases after) = length (biases before).

(** ** The trainer *)

(** The units that [stepGeneration] visits: the first [nodesInLayer]
    entries of [nodes[0]] *)
Definition firstLayer (self : GradientNetwork) : list addr :=
  take (Z.to_nat (nodesInLayer self)) (default [] (nodes self !! 0%nat)).

(** The world after the call [node.gradient(inputs, g, learnRate)] made
    by the trainer, for a unit of the store *)
Definition gradient_call (inputs : list R) (g learnRate : R) (w : world)
    (node : addr) : world :=
  match store w !! node with
  | Some unit =>
      mkWorld (<[node := snd (gradient inputs g learnRate unit)]> (store w))
              (random w)
              (trace w ++ [Call_gradient node inputs g learnRate])
  | None => w
  end.

(** The trace entries of the forward passes and of the training steps *)
Definition is_forward (ev : event) : bool :=
  match ev with Call_forward _ => true | _ => false end.

Definition is_step (ev : event) : bool :=
  match ev with Call_stepGeneration _ _ => true | _ => false end.

(** The number of events of a kind in a trace *)
Definition count (p : event -> bool) (tr : list event) : nat :=
  length (List.filter p tr).

(** The forward passes and the training steps that a state has seen *)
Definition forwards (s : tstate) : nat := count is_forward (trace (snd s)).
Definition steps (s : tstate) : nat := count is_step (trace (snd s)).

(** The stopping criterion [abs(self.value - goal) < abs(tolerance * goal)] *)
Definition converged (goal tolerance : R) (self : GradientNetwork) : Prop :=
  Rabs (net_value self - goal) < Rabs (tolerance * goal).

(** A forward pass that sets the value of the network to the first input *)
Definition sample_forward (inputs : list R)
  : M (GradientNetwork * gmap addr Node) unit :=
  fun s => (Ok tt, (set_net_value (nth 0 inputs 0) (fst s), snd s)).

(** A trainer of one layer of one unit, whose value is 1, and its world *)
Definition sample_trainer : GradientNetwork :=
  mkGradientNetwork [[0%nat]] 1 1 10 0.1 1.

Definition sample_world : world :=
  mkWorld {[0%nat := mkNode 1 [0] [0] [] 1 0]} (fun _ => 0) [].

(** * Properties *)

(** ** Arithmetic facts *)

Lemma Rpower_e (x : R) : Rpower e x = exp x.
Proof.
  unfold Rpower, e. rewrite ln_exp. f_equal. lra.
Qed.

Lemma pow_float_e (x : R) : exp x <= FLOAT_MAX -> pow_float e x = Ok (exp x).
Proof.
  intros H. unfold pow_float. rewrite Rpower_e.
  destruct (Rlt_dec FLOAT_MAX (exp x)); [lra | reflexivity].
Qed.

Lemma pow_float_e_overflow (x : R) :
  FLOAT_MAX < exp x -> pow_float e x = Raise OverflowError.
Proof.
  intros H. unfold pow_float. rewrite Rpower_e.
  destruct (Rlt_dec FLOAT_MAX (exp x)); [reflexivity | contradiction].
Qed.

Lemma pow_int_square (x : R) : x ^ 2 <= FLOAT_MAX -> pow_int x 2 = Ok (x ^ 2).
Proof.
  intros H. unfold pow_int. rewrite Rabs_pos_eq by apply pow2_ge_0.
  destruct (Rlt_dec FLOAT_MAX (x ^ 2)); [lra | reflexivity].
Qed.

Lemma pow_int_outcomes (x : R) (n : nat) :
  pow_int x n = Ok (x ^ n) \/ pow_int x n = Raise OverflowError.
Proof.
  unfold pow_int. destruct (Rlt_dec FLOAT_MAX _); [by right | by left].
Qed.

Lemma pow_int_square_overflow (x : R) :
  FLOAT_MAX < x ^ 2 -> pow_int x 2 = Raise OverflowError.
Proof.
  intros H. unfold pow_int. rewrite Rabs_pos_eq by apply pow2_ge_0.
  destruct (Rlt_dec FLOAT_MAX (x ^ 2)); [reflexivity | contradiction].
Qed.

(** The largest float lies between 4 and [2 ^ 1024] *)
Lemma FLOAT_MAX_bounds : 4 <= FLOAT_MAX < 2 ^ 1024.
Proof.
  unfold FLOAT_MAX.
  assert (1 <= 2 ^ 52) as H52 by (apply pow_R1_Rle; lra).
  assert (0 < / 2 ^ 52 <= 1) as [Hpos Hle].
  { split; [apply Rinv_0_lt_compat; lra |].
    rewrite <- Rinv_1. apply Rinv_le_contravar; lra. }
  assert (2 ^ 2 <= 2 ^ 1023) as H by (apply Rle_pow; [lra | lia]).
  change (2 ^ 1024) with (2 * 2 ^ 1023).
  set (M := 2 ^ 1023) in *. simpl in H. nra.
Qed.

Lemma exp_INR (n : nat) : exp (INR n) = exp 1 ^ n.
Proof.
  induction n as [| n IH]; [simpl; apply exp_0 |].
  rewrite S_INR, exp_plus, IH. simpl. lra.
Qed.

(** [e ** 1200.0] is beyond the float range *)
Lemma exp_1200_overflow : FLOAT_MAX < exp 1200.
Proof.
  replace 1200 with (INR 1200) by (rewrite INR_IZR_INZ; reflexivity).
  rewrite exp_INR.
  assert (2 < exp 1) as He by (pose proof (exp_ineq1 1); lra).
  assert (2 ^ 1200 <= exp 1 ^ 1200) as H1 by (apply pow_incr; lra).
  assert (2 ^ 1024 <= 2 ^ 1200) as H2 by (apply Rle_pow; [lra | lia]).
  pose proof FLOAT_MAX_bounds as [_ H3]. lra.
Qed.

(** Non-positive exponents and squares of small numbers stay in range *)
Lemma exp_nonpos_in_range (x : R) : x <= 0 -> exp x <= 1 /\ exp x <= FLOAT_MAX.
Proof.
  intros Hx. pose proof FLOAT_MAX_bounds as [H4 _].
  assert (exp x <= 1); [| lra].
  destruct (Req_dec_T x 0) as [-> | Hne]; [rewrite exp_0; lra |].
  rewrite <- exp_0. left. apply exp_increasing. lra.
Qed.

Lemma square_in_range (x : R) : -2 <= x <= 2 -> x ^ 2 <= FLOAT_MAX.
Proof.
  intros Hx. pose proof FLOAT_MAX_bounds as [H4 _]. simpl. nra.
Qed.

Lemma pydiv_ok (x y : R) : y <> 0 -> pydiv x y = Ok (x / y).
Proof.
  intros Hy. unfold pydiv. destruct (Req_dec_T y 0); [contradiction | reflexivity].
Qed.

Lemma pydiv_zero (x : R) : pydiv x 0 = Raise ZeroDivisionError.
Proof.
  unfold pydiv. destruct (Req_dec_T 0 0); [reflexivity | contradiction].
Qed.

Lemma INR_pos_neq (n : nat) : (0 < n)%nat -> INR n <> 0.
Proof. intros H. apply not_0_INR. lia. Qed.

Lemma exp_plus_1_pos (x : R) : 0 < exp x + 1.
Proof. pose proof (exp_pos x). lra. Qed.

(** ** Construction *)

Lemma Node_init_ok (ws bs : list R) (cs : list addr) (sv : R) :
  length ws = length bs ->
  Node_init ws bs cs sv = Ok (mkNode (length ws) ws bs cs sv 0).
Proof.
  intros H. unfold Node_init. destruct (decide _); [contradiction | reflexivity].
Qed.

Lemma Node_init_mismatch (ws bs : list R) (cs : list addr) (sv : R) :
  length ws <> length bs -> Node_init ws bs cs sv = Raise ValueError.
Proof.
  intros H. unfold Node_init. destruct (decide _); [reflexivity | contradiction].
Qed.

Lemma Node_init_wf (ws bs : list R) (cs : list addr) (sv : R) (node : Node) :
  Node_init ws bs cs sv = Ok node -> wf_Node node.
Proof.
  unfold Node_init. destruct (decide _) as [| Heq]; [discriminate |].
  intros [= <-]. split; simpl; [reflexivity |].
  destruct (decide (length bs = length ws)) as [-> | Hne]; [reflexivity |].
  exfalso. apply Heq. congruence.
Qed.

Lemma Node_new_ok (ws bs : list R) (cs : list addr) (sv : R) (w : world) :
  length ws = length bs ->
  exists a,
    Node_new ws bs cs sv w
    = (Ok a, set_store (insert a (mkNode (length ws) ws bs cs sv 0)) w)
    /\ store w !! a = None.
Proof.
  intros H. exists (fresh (dom (store w))).
  unfold Node_new, mbind, M_bind, of_result, alloc.
  rewrite (Node_init_ok _ _ _ _ H). split; [done |].
  apply not_elem_of_dom, is_fresh.
Qed.

(** C6. [Node(weights, biases, children, sigmoid_value)] succeeds exactly on
    lists of equal length: it then yields a new unit whose [numInputs] is
    the common length; on lists of different lengths it raises
    [ValueError] in the constructor itself, and no unit comes to exist:
    the store, on which any training would act, is as it was. *)
Theorem C6_construction (ws bs : list R) (cs : list addr) (sv : R) (w : world) :
  (length ws = length bs ->
   exists a node,
     Node_new ws bs cs sv w = (Ok a, set_store (insert a node) w)
     /\ store w !! a = None
     /\ numInputs node = length ws /\ numInputs node = length bs
     /\ weights node = ws /\ biases node = bs /\ wf_Node node)
  /\ (length ws <> length bs ->
      Node_init ws bs cs sv = Raise ValueError
      /\ Node_new ws bs cs sv w = (Raise ValueError, w)).
Proof.
  split; intros H.
  - exists (fresh (dom (store w))), (mkNode (length ws) ws bs cs sv 0).
    unfold Node_new, mbind, M_bind, of_result, alloc.
    rewrite (Node_init_ok _ _ _ _ H). simpl.
    repeat split; try done.
    apply not_elem_of_dom, is_fresh.
  - split; [by apply Node_init_mismatch |].
    unfold Node_new, mbind, M_bind, of_result.
    by rewrite (Node_init_mismatch _ _ _ _ H).
Qed.

Lemma C6_construction_witness :
  (exists a node,
     Node_new [1; 2] [3; 4] [] 0.1 (mkWorld ∅ (fun _ => 0) [])
       = (Ok a, set_store (insert a node) (mkWorld ∅ (fun _ => 0) []))
     /\ numInputs node = 2%nat)
  /\ Node_new [1; 2] [3] [] 0.1 (mkWorld ∅ (fun _ => 0) [])
       = (Raise ValueError, mkWorld ∅ (fun _ => 0) []).
Proof.
  pose proof (C6_construction [1; 2] [3; 4] [] 0.1 (mkWorld ∅ (fun _ => 0) [])) as Hok.
  pose proof (C6_construction [1; 2] [3] [] 0.1 (mkWorld ∅ (fun _ => 0) [])) as Hbad.
  split.
  - destruct (proj1 Hok eq_refl) as (a & node & Hrun & _ & Hn & _).
    exists a, node. split; [exact Hrun | exact Hn].
  - apply (proj2 Hbad). simpl. lia.
Defined.

(** ** Forward evaluation *)

Lemma sum_below_ext (n : nat) (f g : nat -> R) :
  (forall i, (i < n)%nat -> f i = g i) -> sum_below n f = sum_below n g.
Proof.
  induction n as [| n IH]; intros H; simpl; [reflexivity |].
  rewrite IH by (intros; apply H; lia). rewrite H by lia. reflexivity.
Qed.

Lemma fold_left_Rplus_acc (xs : list R) (acc : R) :
  fold_left Rplus xs acc = acc + fold_left Rplus xs 0.
Proof.
  revert acc. induction xs as [| x xs IH]; intros acc; simpl; [lra |].
  rewrite (IH (acc + x)), (IH (0 + x)). lra.
Qed.

Lemma py_sum_sum_below (xs : list R) :
  py_sum xs = sum_below (length xs) (fun i => nth i xs 0).
Proof.
  unfold py_sum. induction xs as [| x xs IH] using rev_ind; [reflexivity |].
  rewrite fold_left_app, length_app, Nat.add_1_r. simpl. rewrite IH. f_equal.
  - apply sum_below_ext. intros i Hi. by rewrite app_nth1.
  - rewrite app_nth2 by lia. by rewrite Nat.sub_diag.
Qed.

Lemma sigmoid_ok (self : Node) (x : R) :
  (0 < numInputs self)%nat -> sigmoid_in_range (sigmoid_value self) x ->
  sigmoid self x = Ok (sigmoid_formula (sigmoid_value self) (numInputs self) x).
Proof.
  intros Hn Hx. unfold sigmoid, sigmoid_formula, sigmoid_in_range in *.
  replace (-1 * x * sigmoid_value self) with (- x * sigmoid_value self) by lra.
  rewrite pow_float_e by done. simpl.
  pose proof (exp_pos (- x * sigmoid_value self)).
  rewrite pydiv_ok by lra. simpl.
  by rewrite pydiv_ok by (by apply INR_pos_neq).
Qed.


Lemma map3_ok_min (f : R -> R -> R -> result R) (g : R -> R -> R -> R)
    (ws bs ns : list R) :
  (forall i w b x, ws !! i = Some w -> bs !! i = Some b -> ns !! i = Some x ->
                   f w b x = Ok (g w b x)) ->
  exists xs, map3 f ws bs ns = Ok xs
    /\ length xs = (length ws `min` (length bs `min` length ns))%nat
    /\ forall i, (i < length xs)%nat ->
         nth i xs 0 = g (nth i ws 0) (nth i bs 0) (nth i ns 0).
Proof.
  revert bs ns.
  induction ws as [| w ws IH]; intros bs ns Hf.
  - exists []. simpl. split; [done |]. split; [done |]. intros i Hi. simpl in Hi. lia.
  - destruct bs as [| b bs].
    { exists []. simpl. split; [done |]. split; [done |]. intros i Hi. simpl in Hi. lia. }
    destruct ns as [| x ns].
    { exists []. simpl. split; [done |]. split; [done |]. intros i Hi. simpl in Hi. lia. }
    destruct (IH bs ns) as (xs & Hrun & Hlen & Hnth).
    { intros i w' b' x' Hw Hb Hx. by apply (Hf (S i)). }
    exists (g w b x :: xs). simpl. rewrite (Hf 0%nat w b x) by done. rewrite Hrun. simpl.
    split; [reflexivity |]. split; [by rewrite Hlen |].
    intros [| i] Hi; [reflexivity |]. simpl. apply Hnth. simpl in Hi. lia.
Qed.

(** [__call__] on a unit that satisfies the invariant, for inputs of any
    length whose powers are floats *)
Lemma Node_call_run (self : Node) (nums : list R) :
  wf_Node self -> call_in_range self nums ->
  let total :=
    sum_below (length nums `min` numInputs self) (fun i =>
      sigmoid_formula (sigmoid_value self) (numInputs self)
        (nth i (weights self) 0 * nth i nums 0 + nth i (biases self) 0)) in
  Node_call nums self = (Ok total, set_value total self).
Proof.
  intros [Hw Hb] Hrange total.
  unfold Node_call, mbind, M_bind, get, of_result, modify, mret, M_ret.
  destruct (Nat.eq_dec (numInputs self) 0%nat) as [Hz | Hnz].
  - destruct (weights self) as [| w ws] eqn:Ew; [| simpl in Hw; lia].
    simpl. subst total. rewrite Hz, Nat.min_0_r. reflexivity.
  - destruct (map3_ok_min
      (fun weight bias num => sigmoid self (weight * num + bias))
      (fun weight bias num =>
         sigmoid_formula (sigmoid_value self) (numInputs self) (weight * num + bias))
      (weights self) (biases self) nums) as (xs & Hrun & Hlen & Hnth).
    { intros i w b x Hwi Hbi Hxi. apply sigmoid_ok; [lia |].
      pose proof (lookup_lt_Some _ _ _ Hwi). pose proof (lookup_lt_Some _ _ _ Hxi).
      specialize (Hrange i). 
      rewrite (nth_lookup_Some _ _ 0 _ Hwi), (nth_lookup_Some _ _ 0 _ Hbi),
        (nth_lookup_Some _ _ 0 _ Hxi) in Hrange.
      apply Hrange; lia. }
    rewrite Hrun. simpl.
    assert (py_sum xs = total) as ->; [| reflexivity].
    rewrite py_sum_sum_below. subst total.
    replace (length nums `min` numInputs self)%nat with (length xs) by lia.
    by apply sum_below_ext.
Qed.




(** ** The gradient step *)

Lemma gradientHelper_ok (self : Node) (weight bias num goal : R) :
  (0 < numInputs self)%nat ->
  helper_in_range (sigmoid_value self) (numInputs self) weight bias num goal ->
  gradientHelper self weight bias num goal
  = Ok (dW_formula (sigmoid_value self) (numInputs self) weight bias num goal,
        dB_formula (sigmoid_value self) (numInputs self) weight bias num goal).
Proof.
  intros Hn (Hp & Hd & Hb2). unfold gradientHelper, dW_formula, dB_formula.
  rewrite pow_float_e by done. simpl.
  pose proof (exp_plus_1_pos (- (weight * num + bias) * sigmoid_value self)) as Hb.
  pose proof (INR_pos_neq _ Hn) as Hi.
  rewrite pydiv_ok by (apply Rmult_integral_contrapositive_currified; lra).
  simpl. rewrite pow_int_square by done. simpl.
  rewrite pow_int_square by done. simpl.
  rewrite pydiv_ok; [reflexivity |].
  apply Rmult_integral_contrapositive_currified; [| done].
  apply Rmult_integral_contrapositive_currified; lra.
Qed.

Lemma gradientHelper_overflow (self : Node) (weight bias num goal : R) :
  FLOAT_MAX < exp (- (weight * num + bias) * sigmoid_value self) ->
  gradientHelper self weight bias num goal = Raise OverflowError.
Proof.
  intros H. unfold gradientHelper. by rewrite pow_float_e_overflow.
Qed.

(** A sufficient condition for the powers of [gradientHelper] to be floats:
    a non-negative exponent argument and a goal of absolute value at most 1 *)
Lemma helper_in_range_small (s : R) (n : nat) (weight bias num goal : R) :
  (0 < n)%nat -> 0 <= (weight * num + bias) * s -> -1 <= goal <= 1 ->
  helper_in_range s n weight bias num goal.
Proof.
  intros Hn Ha Hg. unfold helper_in_range.
  destruct (exp_nonpos_in_range (- (weight * num + bias) * s)) as [He1 He]; [lra |].
  pose proof (exp_pos (- (weight * num + bias) * s)) as Hpos.
  split; [done |].
  assert (1 <= INR n) as Hi by (apply (le_INR 1); lia).
  assert (0 < 1 / ((exp (- (weight * num + bias) * s) + 1) * INR n) <= 1) as [Hc0 Hc1].
  { assert (1 <= (exp (- (weight * num + bias) * s) + 1) * INR n) as Hden by nra.
    split; [apply Rdiv_lt_0_compat; lra |].
    unfold Rdiv. rewrite Rmult_1_l, <- Rinv_1.
    apply Rinv_le_contravar; lra. }
  split; apply square_in_range; lra.
Qed.

Lemma gradient_loop_nil (index len : nat) (goal learnRate : R) (self : Node) :
  gradient_loop index [] len goal learnRate self = (Ok tt, self).
Proof. reflexivity. Qed.

Lemma gradient_loop_stop (index len : nat) (num : R) (rest : list R)
    (goal learnRate : R) (self : Node) :
  weights self !! index = None \/ biases self !! index = None ->
  gradient_loop index (num :: rest) len goal learnRate self = (Ok tt, self).
Proof.
  intros H. simpl. unfold mbind, M_bind, get.
  destruct (weights self !! index); [| reflexivity].
  destruct (biases self !! index); [| reflexivity].
  destruct H; discriminate.
Qed.

Lemma gradient_loop_round (index len : nat) (num : R) (rest : list R)
    (goal learnRate weight bias : R) (self : Node) :
  weights self !! index = Some weight -> biases self !! index = Some bias ->
  (0 < numInputs self)%nat -> (0 < len)%nat ->
  helper_in_range (sigmoid_value self) (numInputs self) weight bias num (goal / INR len) ->
  gradient_loop index (num :: rest) len goal learnRate self
  = gradient_loop (S index) rest len goal learnRate
      (gradient_round index weight bias num (goal / INR len) learnRate self).
Proof.
  intros Hw Hb Hn Hlen Hrange. simpl. unfold mbind at 1, M_bind at 1, get.
  rewrite Hw, Hb. unfold mbind at 1, M_bind at 1, of_result at 1.
  rewrite pydiv_ok by (by apply INR_pos_neq).
  unfold mbind at 1, M_bind at 1, of_result at 1.
  rewrite gradientHelper_ok by done.
  unfold mbind at 1, M_bind at 1, weights_isub. rewrite Hw.
  unfold mbind at 1, M_bind at 1, biases_isub. simpl. rewrite Hb.
  reflexivity.
Qed.

Lemma gradient_round_wf (index : nat) (weight bias num g learnRate : R) (self : Node) :
  wf_Node self -> wf_Node (gradient_round index weight bias num g learnRate self).
Proof.
  intros [Hw Hb]. split; simpl; by rewrite length_insert.
Qed.

(** The loop started at [index] on the inputs [rest], when the powers it
    computes are floats: it ends normally; the pairs at the positions it
    visits are updated from the values they had when the loop started, and
    everything else is as it was. *)
Lemma gradient_loop_spec (rest : list R) :
  forall (index len : nat) (goal learnRate : R) (self : Node),
    wf_Node self -> (0 < len)%nat ->
    (forall i weight bias num,
       (index <= i)%nat ->
       weights self !! i = Some weight -> biases self !! i = Some bias ->
       rest !! (i - index)%nat = Some num ->
       helper_in_range (sigmoid_value self) (numInputs self) weight bias num
                       (goal / INR len)) ->
    exists self',
      gradient_loop index rest len goal learnRate self = (Ok tt, self')
      /\ numInputs self' = numInputs self
      /\ children self' = children self
      /\ sigmoid_value self' = sigmoid_value self
      /\ value self' = value self
      /\ length (weights self') = length (weights self)
      /\ length (biases self') = length (biases self)
      /\ (forall i weight bias num,
            (index <= i)%nat ->
            weights self !! i = Some weight -> biases self !! i = Some bias ->
            rest !! (i - index)%nat = Some num ->
            weights self' !! i
            = Some (weight - dW_formula (sigmoid_value self) (numInputs self)
                               weight bias num (goal / INR len) * learnRate)
            /\ biases self' !! i
               = Some (bias - dB_formula (sigmoid_value self) (numInputs self)
                                weight bias num (goal / INR len) * learnRate))
      /\ (forall i, (i < index \/ index + length rest <= i)%nat ->
            weights self' !! i = weights self !! i
            /\ biases self' !! i = biases self !! i).
Proof.
  induction rest as [| num rest IH];
    intros index len goal learnRate self Hwf Hlen Hrange.
  - exists self. rewrite gradient_loop_nil.
    repeat (split; [reflexivity |]). split; [| done].
    intros i weight bias x _ _ _ Hx. by rewrite lookup_nil in Hx.
  - destruct (weights self !! index) as [weight |] eqn:Ew;
      [destruct (biases self !! index) as [bias |] eqn:Eb |].
    + rewrite (gradient_loop_round _ _ _ _ _ _ weight bias);
        [| done | done | destruct Hwf as [Hw _]; apply lookup_lt_Some in Ew; lia | done
         | apply (Hrange index); [lia | done | done | by rewrite Nat.sub_diag] ].
      set (self1 := gradient_round index weight bias num (goal / INR len) learnRate self).
      destruct (IH (S index) len goal learnRate self1)
        as (self' & Hrun & Hn & Hc & Hs & Hv & Hlw & Hlb & Hupd & Hframe);
        [by apply gradient_round_wf | done | |].
      { intros i wi bi x Hi Hwi Hbi Hx. simpl in Hwi, Hbi.
        rewrite list_lookup_insert_ne in Hwi by lia.
        rewrite list_lookup_insert_ne in Hbi by lia.
        apply (Hrange i); [lia | done | done |].
        replace (i - index)%nat with (S (i - S index)) by lia. done. }
      exists self'. split; [exact Hrun |].
      split; [by rewrite Hn |]. split; [by rewrite Hc |].
      split; [by rewrite Hs |]. split; [by rewrite Hv |].
      split; [rewrite Hlw; simpl; by rewrite length_insert |].
      split; [rewrite Hlb; simpl; by rewrite length_insert |].
      split.
      * intros i wi bi x Hi Hwi Hbi Hx.
        destruct (decide (i = index)) as [-> | Hne].
        -- rewrite Nat.sub_diag in Hx. simpl in Hx.
           assert (x = num) as -> by congruence.
           assert (wi = weight) as -> by congruence.
           assert (bi = bias) as -> by congruence.
           destruct (Hframe index) as [-> ->]; [lia |].
           simpl. split; apply list_lookup_insert_eq.
           ++ by apply lookup_lt_Some in Ew.
           ++ by apply lookup_lt_Some in Eb.
        -- replace (i - index)%nat with (S (i - S index)) in Hx by lia.
           simpl in Hx.
           apply (Hupd i wi bi x); [lia | | | exact Hx].
           ++ simpl. by rewrite list_lookup_insert_ne.
           ++ simpl. by rewrite list_lookup_insert_ne.
      * intros i Hi. simpl in Hi.
        destruct (Hframe i) as [-> ->]; [lia |].
        simpl. split; rewrite list_lookup_insert_ne; (done || lia).
    + exists self. rewrite gradient_loop_stop by (by right).
      repeat (split; [reflexivity |]). split; [| done].
      intros i wi bi x Hi _ Hbi _.
      apply lookup_lt_Some in Hbi. apply lookup_ge_None in Eb. lia.
    + exists self. rewrite gradient_loop_stop by (by left).
      repeat (split; [reflexivity |]). split; [| done].
      intros i wi bi x Hi Hwi _ _.
      apply lookup_lt_Some in Hwi. apply lookup_ge_None in Ew. lia.
Qed.

Lemma gradient_loop_footprint (rest : list R) :
  forall (index len : nat) (goal learnRate : R) (self self' : Node) (r : result unit),
    gradient_loop index rest len goal learnRate self = (r, self') ->
    numInputs self' = numInputs self
    /\ children self' = children self
    /\ sigmoid_value self' = sigmoid_value self
    /\ value self' = value self
    /\ forall i, (i < index \/ index + length rest <= i)%nat ->
         weights self' !! i = weights self !! i
         /\ biases self' !! i = biases self !! i.
Proof.
  induction rest as [| num rest IH]; intros index len goal learnRate self self' r.
  - intros [= <- <-]. done.
  - simpl. unfold mbind at 1, M_bind at 1, get.
    destruct (weights self !! index) as [weight |] eqn:Ew;
      [| by intros [= <- <-]].
    destruct (biases self !! index) as [bias |] eqn:Eb;
      [| by intros [= <- <-]].
    unfold mbind at 1, M_bind at 1, of_result at 1.
    destruct (pydiv goal (INR len)) as [g | err]; [| by intros [= <- <-]].
    unfold mbind at 1, M_bind at 1, of_result at 1.
    destruct (gradientHelper self weight bias num g) as [[wc bc] | err];
      [| by intros [= <- <-]].
    unfold mbind at 1, M_bind at 1, weights_isub. rewrite Ew.
    unfold mbind at 1, M_bind at 1, biases_isub. simpl. rewrite Eb.
    intros Hrun. apply IH in Hrun as (Hn & Hc & Hs & Hv & Hframe).
    simpl in Hn, Hc, Hs, Hv. repeat (split; [done |]).
    intros i Hi. destruct (Hframe i) as [-> ->]; [lia |].
    simpl. split; apply list_lookup_insert_ne; lia.
Qed.



Lemma gradientHelper_outcomes (self : Node) (weight bias num goal : R) :
  (0 < numInputs self)%nat ->
  (exists partials, gradientHelper self weight bias num goal = Ok partials)
  \/ gradientHelper self weight bias num goal = Raise OverflowError.
Proof.
  intros Hn. unfold gradientHelper, pow_float. rewrite Rpower_e.
  pose proof (exp_plus_1_pos (- (weight * num + bias) * sigmoid_value self)) as Hb.
  pose proof (INR_pos_neq _ Hn) as Hi.
  destruct (Rlt_dec FLOAT_MAX _); [by right |]. simpl.
  rewrite pydiv_ok by (apply Rmult_integral_contrapositive_currified; lra).
  simpl.
  match goal with
  | |- context [pow_int ?x 2 ≫= _] =>
      destruct (pow_int_outcomes x 2) as [-> | ->]; [| by right]
  end.
  simpl.
  match goal with
  | |- context [pow_int ?x 2 ≫= _] =>
      destruct (pow_int_outcomes x 2) as [-> | ->]; [| by right]
  end.
  simpl.
  rewrite pydiv_ok; [left; by eexists |].
  apply Rmult_integral_contrapositive_currified; [| done].
  apply Rmult_integral_contrapositive_currified; lra.
Qed.

(** On a unit that satisfies the invariant the loop raises no
    [IndexError] and no [ZeroDivisionError] *)
Lemma gradient_loop_outcomes (rest : list R) :
  forall (index len : nat) (goal learnRate : R) (self self' : Node) (r : result unit),
    wf_Node self -> (0 < len)%nat ->
    gradient_loop index rest len goal learnRate self = (r, self') ->
    r = Ok tt \/ r = Raise OverflowError.
Proof.
  induction rest as [| num rest IH]; intros index len goal learnRate self self' r Hwf Hlen.
  - intros [= <- <-]. by left.
  - simpl. unfold mbind at 1, M_bind at 1, get.
    destruct (weights self !! index) as [weight |] eqn:Ew;
      [| intros [= <- <-]; by left].
    destruct (biases self !! index) as [bias |] eqn:Eb;
      [| intros [= <- <-]; by left].
    unfold mbind at 1, M_bind at 1, of_result at 1.
    rewrite pydiv_ok by (by apply INR_pos_neq).
    unfold mbind at 1, M_bind at 1, of_result at 1.
    destruct (gradientHelper_outcomes self weight bias num (goal / INR len))
      as [[[wc bc] ->] | ->];
      [destruct Hwf as [Hw _]; apply lookup_lt_Some in Ew; lia | | intros [= <- <-]; by right].
    unfold mbind at 1, M_bind at 1, weights_isub. rewrite Ew.
    unfold mbind at 1, M_bind at 1, biases_isub. simpl. rewrite Eb.
    apply IH; [| done].
    destruct Hwf as [Hw Hb]. split; simpl; by rewrite length_insert.
Qed.

Lemma gradient_outcomes (self self' : Node) (nums : list R) (goal learnRate : R)
    (r : result unit) :
  wf_Node self -> gradient nums goal learnRate self = (r, self') ->
  r = Ok tt \/ r = Raise OverflowError.
Proof.
  intros Hwf. unfold gradient. destruct nums as [| num nums].
  - intros [= <- <-]. by left.
  - apply gradient_loop_outcomes; [done | simpl; lia].
Qed.

(** [Node([-3.0], [0.0], [], 0.1).gradient([4000.0], goal, learnRate)]
    raises [OverflowError] at [e ** 1200.0]; the unit is as it was. *)
Lemma gradient_overflow_example (goal learnRate : R) :
  gradient [4000] goal learnRate (mkNode 1 [-3] [0] [] 0.1 0)
  = (Raise OverflowError, mkNode 1 [-3] [0] [] 0.1 0).
Proof.
  unfold gradient. simpl. unfold mbind at 1, M_bind at 1, get. simpl.
  unfold mbind at 1, M_bind at 1, of_result at 1.
  rewrite pydiv_ok by lra.
  unfold mbind at 1, M_bind at 1, of_result at 1.
  rewrite gradientHelper_overflow; [reflexivity |]. simpl.
  replace (- (-3 * 4000 + 0) * 0.1) with 1200 by lra.
  apply exp_1200_overflow.
Qed.

(** One call of [gradient] on a unit that satisfies the invariant, for an
    input list of any length whose powers are floats. *)
Lemma gradient_spec (self : Node) (nums : list R) (goal learnRate : R) :
  wf_Node self -> gradient_in_range self nums goal ->
  exists self',
    gradient nums goal learnRate self = (Ok tt, self')
    /\ numInputs self' = numInputs self
    /\ children self' = children self
    /\ sigmoid_value self' = sigmoid_value self
    /\ value self' = value self
    /\ length (weights self') = length (weights self)
    /\ length (biases self') = length (biases self)
    /\ (forall i, (i < length nums)%nat -> (i < numInputs self)%nat ->
          let dB := dB_formula (sigmoid_value self) (numInputs self)
                      (nth i (weights self) 0) (nth i (biases self) 0)
                      (nth i nums 0) (goal / INR (length nums)) in
          nth i (weights self') 0 = nth i (weights self) 0 - learnRate * (dB * nth i nums 0)
          /\ nth i (biases self') 0 = nth i (biases self) 0 - learnRate * dB)
    /\ (forall i, (length nums <= i)%nat ->
          weights self' !! i = weights self !! i
          /\ biases self' !! i = biases self !! i).
Proof.
  intros Hwf Hrange. unfold gradient.
  destruct nums as [| num0 nums'] eqn:En.
  - exists self. rewrite gradient_loop_nil.
    repeat (split; [reflexivity |]). split; [| done].
    intros i Hi. simpl in Hi. lia.
  - rewrite <- En in *.
    destruct (gradient_loop_spec nums 0 (length nums) goal learnRate self Hwf)
      as (self' & Hrun & Hn & Hc & Hs & Hv & Hlw & Hlb & Hupd & Hframe).
    { subst nums. simpl. lia. }
    { intros i wi bi x _ Hwi Hbi Hx. rewrite Nat.sub_0_r in Hx.
      pose proof (lookup_lt_Some _ _ _ Hwi). pose proof (lookup_lt_Some _ _ _ Hx).
      specialize (Hrange i).
      rewrite (nth_lookup_Some _ _ 0 _ Hwi), (nth_lookup_Some _ _ 0 _ Hbi),
        (nth_lookup_Some _ _ 0 _ Hx) in Hrange.
      destruct Hwf. apply Hrange; lia. }
    exists self'. split; [exact Hrun |].
    do 6 (split; [assumption |]). split.
    + intros i Hi Hin. cbv zeta. destruct Hwf as [Hw Hb].
      destruct (lookup_lt_is_Some_2 (weights self) i) as [wi Hwi]; [lia |].
      destruct (lookup_lt_is_Some_2 (biases self) i) as [bi Hbi]; [lia |].
      destruct (lookup_lt_is_Some_2 nums i) as [x Hx]; [lia |].
      destruct (Hupd i wi bi x) as [Hw' Hb'];
        [lia | done | done | by rewrite Nat.sub_0_r |].
      rewrite (nth_lookup_Some _ _ 0 _ Hwi), (nth_lookup_Some _ _ 0 _ Hbi),
        (nth_lookup_Some _ _ 0 _ Hx).
      rewrite (nth_lookup_Some _ _ 0 _ Hw'), (nth_lookup_Some _ _ 0 _ Hb').
      unfold dW_formula. split; lra.
    + intros i Hi. apply Hframe. right. simpl. lia.
Qed.




(** C10. [gradient] called with fewer inputs than [numInputs] raises no
    [IndexError] and no [ZeroDivisionError]: when the powers it computes
    are floats it returns, the pairs at the positions [i < len(nums)]
    updated with the per-example goal [goal/len(nums)]; and however it
    ends, the pairs at the positions [len(nums) <= i < numInputs] are left
    as they were. *)
Theorem C10_gradient_short_input (self : Node) (nums : list R) (goal learnRate : R) :
  wf_Node self -> (length nums < numInputs self)%nat ->
  (gradient_in_range self nums goal ->
   exists self',
     gradient nums goal learnRate self = (Ok tt, self')
     /\ (forall i, (i < length nums)%nat ->
           let dB := dB_formula (sigmoid_value self) (numInputs self)
                       (nth i (weights self) 0) (nth i (biases self) 0)
                       (nth i nums 0) (goal / INR (length nums)) in
           nth i (weights self') 0 = nth i (weights self) 0 - learnRate * (dB * nth i nums 0)
           /\ nth i (biases self') 0 = nth i (biases self) 0 - learnRate * dB)
     /\ length (weights self') = numInputs self
     /\ length (biases self') = numInputs self)
  /\ (forall r self',
        gradient nums goal learnRate self = (r, self') ->
        (r = Ok tt \/ r = Raise OverflowError)
        /\ forall i, (length nums <= i < numInputs self)%nat ->
             weights self' !! i = weights self !! i
             /\ biases self' !! i = biases self !! i).
Proof.
  intros Hwf Hshort. split.
  - intros Hrange.
    destruct (gradient_spec self nums goal learnRate Hwf Hrange)
      as (self' & Hrun & _ & _ & _ & _ & Hlw & Hlb & Hupd & _).
    destruct Hwf as [Hw Hb].
    exists self'. split; [exact Hrun |]. split; [| split; congruence].
    intros i Hi. apply (Hupd i); lia.
  - intros r self' Hrun. split.
    + by apply (gradient_outcomes self self' nums goal learnRate r Hwf).
    + intros i [Hi _].
      apply (gradient_loop_footprint _ _ _ _ _ _ _ _ Hrun). right. simpl. lia.
Qed.

Lemma C10_gradient_short_input_witness :
  exists self',
    gradient [1] 0 1 (mkNode 2 [0; 7] [0; 9] [] 1 0) = (Ok tt, self')
    /\ weights self' !! 1%nat = Some 7 /\ biases self' !! 1%nat = Some 9.
Proof.
  destruct (C10_gradient_short_input (mkNode 2 [0; 7] [0; 9] [] 1 0) [1] 0 1
              (conj eq_refl eq_refl) (Nat.lt_succ_diag_r 1))
    as [Hreturns Hframe].
  destruct Hreturns as (self' & Hrun & _).
  { intros i Hi _. simpl in Hi. assert (i = 0%nat) as -> by lia.
    apply helper_in_range_small; simpl; [lia | lra | lra]. }
  exists self'. split; [exact Hrun |].
  exact (proj2 (Hframe _ _ Hrun) 1%nat (conj (Nat.le_refl 1) (Nat.lt_succ_diag_r 1))).
Defined.

(** Some error can be raised, for a short input list as for any other:
    [Node([-3.0, 1.0], [0.0, 0.0], [], 0.1).gradient([4000.0], 0.0, 0.1)]
    raises [OverflowError] at [e ** 1200.0]. *)
Lemma C10_gradient_short_input_counterexample :
  wf_Node (mkNode 2 [-3; 1] [0; 0] [] 0.1 0)
  /\ (length [4000%R] < numInputs (mkNode 2 [-3; 1] [0; 0] [] 0.1 0)%R)%nat
  /\ gradient [4000] 0 0.1 (mkNode 2 [-3; 1] [0; 0] [] 0.1 0)
     = (Raise OverflowError, mkNode 2 [-3; 1] [0; 0] [] 0.1 0).
Proof.
  split; [split; reflexivity |]. split; [simpl; lia |].
  unfold gradient. simpl. unfold mbind at 1, M_bind at 1, get. simpl.
  unfold mbind at 1, M_bind at 1, of_result at 1.
  rewrite pydiv_ok by lra.
  unfold mbind at 1, M_bind at 1, of_result at 1.
  rewrite gradientHelper_overflow; [reflexivity |]. simpl.
  replace (- (-3 * 4000 + 0) * 0.1) with 1200 by lra.
  apply exp_1200_overflow.
Qed.

(** ** The derivative that [gradientHelper] is meant to compute *)

(** The chain rule through the activation, for a pre-activation [a t] that
    depends on the parameter [t]. *)
Lemma squared_error_chain (a : R -> R) (a' t0 s n goal : R) :
  n <> 0 ->
  derivable_pt_lim a t0 a' ->
  derivable_pt_lim
    (fun t => (1 / ((Rpower e (- a t * s) + 1) * n) - goal) ^ 2) t0
    (2 * s * (exp (- a t0 * s) + 1 - 1)
       * (1 / ((exp (- a t0 * s) + 1) * n) - goal)
       / ((exp (- a t0 * s) + 1) ^ 2 * n) * a').
Proof.
  intros Hn Ha.
  pose proof (exp_plus_1_pos (- a t0 * s)) as Hb.
  pose proof (derivable_pt_lim_scal a (- s) t0 a' Ha) as H2.
  pose proof (derivable_pt_lim_comp _ exp t0 _ _ H2
                (derivable_pt_lim_exp (mult_real_fct (- s) a t0))) as H3.
  pose proof (derivable_pt_lim_plus _ _ t0 _ _ H3 (derivable_pt_lim_const 1 t0)) as H4.
  pose proof (derivable_pt_lim_scal_right _ t0 _ n H4) as H5.
  pose proof (derivable_pt_lim_div _ _ t0 _ _ (derivable_pt_lim_const 1 t0) H5) as H6.
  pose proof (derivable_pt_lim_minus _ _ t0 _ _
                (H6 ltac:(unfold plus_fct, comp, fct_cte, mult_real_fct;
                          replace (- s * a t0) with (- a t0 * s) by lra;
                          apply Rmult_integral_contrapositive_currified; lra))
                (derivable_pt_lim_const goal t0)) as H7.
  pose proof (derivable_pt_lim_comp _ (fun y => y ^ 2) t0 _ _ H7
                (derivable_pt_lim_pow _ 2)) as H8.
  clear H2 H3 H4 H5 H6 H7.
  match type of H8 with
  | derivable_pt_lim ?F _ ?l =>
      apply (derivable_pt_lim_ext F); [| replace_with_goal l H8 ]
  end.
  - intros z. unfold comp, minus_fct, div_fct, plus_fct, fct_cte, mult_real_fct.
    rewrite Rpower_e. replace (- s * a z) with (- a z * s) by lra. reflexivity.
  - unfold comp, minus_fct, div_fct, plus_fct, fct_cte, mult_real_fct, Rsqr.
    replace (- s * a t0) with (- a t0 * s) by lra.
    simpl. field. split; lra.
Qed.

Lemma derivable_pt_lim_affine (p q t0 : R) :
  derivable_pt_lim (fun t => p * t + q) t0 p.
Proof.
  intros eps Heps. exists (mkposreal 1 Rlt_0_1). intros h Hh _.
  replace ((p * (t0 + h) + q - (p * t0 + q)) / h - p) with 0 by (by field).
  by rewrite Rabs_R0.
Qed.

(** The derivative of the squared error in [bias] *)
Lemma squared_error_derive_bias (self : Node) (weight bias num goal : R) :
  (0 < numInputs self)%nat ->
  derivable_pt_lim (fun t => squared_error self weight t num goal) bias
                   (analytic_dB self weight bias num goal).
Proof.
  intros Hn. unfold squared_error, analytic_dB.
  pose proof (squared_error_chain (fun t => 1 * t + weight * num) 1 bias
                (sigmoid_value self) (INR (numInputs self)) goal
                (INR_pos_neq _ Hn)
                (derivable_pt_lim_affine 1 (weight * num) bias)) as H.
  eapply derivable_pt_lim_ext; [| cbv beta in H |- *; replace_with_goal
    (2 * sigmoid_value self * (exp (- (1 * bias + weight * num) * sigmoid_value self) + 1 - 1)
     * (1 / ((exp (- (1 * bias + weight * num) * sigmoid_value self) + 1)
             * INR (numInputs self)) - goal)
     / ((exp (- (1 * bias + weight * num) * sigmoid_value self) + 1) ^ 2
        * INR (numInputs self)) * 1) H ].
  - intros z. cbv beta. by replace (1 * z + weight * num) with (weight * num + z) by lra.
  - replace (1 * bias + weight * num) with (weight * num + bias) by lra. lra.
Qed.

(** The derivative of the squared error in [weight] *)
Lemma squared_error_derive_weight (self : Node) (weight bias num goal : R) :
  (0 < numInputs self)%nat ->
  derivable_pt_lim (fun t => squared_error self t bias num goal) weight
                   (analytic_dB self weight bias num goal * num).
Proof.
  intros Hn. unfold squared_error, analytic_dB.
  pose proof (squared_error_chain (fun t => num * t + bias) num weight
                (sigmoid_value self) (INR (numInputs self)) goal
                (INR_pos_neq _ Hn)
                (derivable_pt_lim_affine num bias weight)) as H.
  eapply derivable_pt_lim_ext; [| cbv beta in H |- *; replace_with_goal
    (2 * sigmoid_value self * (exp (- (num * weight + bias) * sigmoid_value self) + 1 - 1)
     * (1 / ((exp (- (num * weight + bias) * sigmoid_value self) + 1)
             * INR (numInputs self)) - goal)
     / ((exp (- (num * weight + bias) * sigmoid_value self) + 1) ^ 2
        * INR (numInputs self)) * num) H ].
  - intros z. cbv beta. by replace (num * z + bias) with (z * num + bias) by lra.
  - replace (num * weight + bias) with (weight * num + bias) by lra. lra.
Qed.

(** What [gradientHelper] returns exceeds the derivative by the same
    expression with [1] in the place of [b - 1]. *)
Lemma dB_formula_excess (self : Node) (weight bias num goal : R) :
  (0 < numInputs self)%nat ->
  let a := weight * num + bias in
  let b := exp (- a * sigmoid_value self) + 1 in
  let c := 1 / (b * INR (numInputs self)) in
  dB_formula (sigmoid_value self) (numInputs self) weight bias num goal
  - analytic_dB self weight bias num goal
  = 2 * sigmoid_value self * (c - goal) / (b ^ 2 * INR (numInputs self)).
Proof.
  intros Hn a b c. unfold dB_formula, analytic_dB. fold a. fold b. fold c.
  pose proof (exp_plus_1_pos (- a * sigmoid_value self)) as Hb. fold b in Hb.
  pose proof (INR_pos_neq _ Hn). field. split; lra.
Qed.

(** C2. The partials that [gradientHelper] returns are not the derivatives
    of the squared error [(c - goal)^2]: for the unit with one input,
    weight 0, bias 0 and [sigmoid_value = 1], the input 1 and the goal 0,
    it returns 1/2 for both, while the derivatives in [bias] and in
    [weight] are both 1/4. *)
Theorem C2_gradientHelper_not_derivative :
  let self := mkNode 1 [0] [0] [] 1 0 in
  gradientHelper self 0 0 1 0 = Ok (1 / 2, 1 / 2)
  /\ derivable_pt_lim (fun bias => squared_error self 0 bias 1 0) 0 (1 / 4)
  /\ derivable_pt_lim (fun weight => squared_error self weight 0 1 0) 0 (1 / 4)
  /\ ~ derivable_pt_lim (fun bias => squared_error self 0 bias 1 0) 0 (1 / 2)
  /\ ~ derivable_pt_lim (fun weight => squared_error self weight 0 1 0) 0 (1 / 2).
Proof.
  intros self.
  assert (Hn : (0 < numInputs self)%nat) by (simpl; lia).
  assert (Hv : analytic_dB self 0 0 1 0 = 1 / 4).
  { unfold analytic_dB. simpl.
    replace (- (0 * 1 + 0) * 1) with 0 by lra. rewrite exp_0. lra. }
  assert (Hbias : derivable_pt_lim (fun bias => squared_error self 0 bias 1 0) 0 (1 / 4)).
  { rewrite <- Hv. by apply squared_error_derive_bias. }
  assert (Hweight : derivable_pt_lim (fun weight => squared_error self weight 0 1 0) 0 (1 / 4)).
  { replace (1 / 4) with (analytic_dB self 0 0 1 0 * 1) by lra.
    by apply squared_error_derive_weight. }
  split; [| split; [exact Hbias | split; [exact Hweight | split]]].
  - rewrite gradientHelper_ok;
      [| done | apply helper_in_range_small; simpl; [lia | lra | lra] ].
    unfold dW_formula, dB_formula. simpl.
    replace (- (0 * 1 + 0) * 1) with 0 by lra. rewrite exp_0.
    f_equal. f_equal; lra.
  - intros H. pose proof (uniqueness_limite _ _ _ _ Hbias H). lra.
  - intros H. pose proof (uniqueness_limite _ _ _ _ Hweight H). lra.
Qed.

(** ** Connectivity *)

Section Connectivity.

Variable st : gmap addr Node.

Lemma py_any_true (f : addr -> result bool) (l : list addr) :
  py_any f l = Ok true -> exists child, child ∈ l /\ f child = Ok true.
Proof.
  induction l as [| c l IH]; simpl; [discriminate |].
  destruct (f c) as [[|] | err] eqn:Ec; intros H.
  - exists c. split; [left | done].
  - destruct (IH H) as (child & Hin & Hc). exists child. split; [by right | done].
  - discriminate.
Qed.

Lemma py_any_false (f : addr -> result bool) (l : list addr) :
  py_any f l = Ok false -> forall child, child ∈ l -> f child = Ok false.
Proof.
  induction l as [| c l IH]; simpl; intros H child Hin.
  - by apply elem_of_nil in Hin.
  - destruct (f c) as [[|] | err] eqn:Ec; try discriminate.
    apply elem_of_cons in Hin as [-> | Hin]; [done | by apply IH].
Qed.

Lemma py_any_intro (f : addr -> result bool) (l : list addr) (child : addr) :
  (forall c, c ∈ l -> exists b, f c = Ok b) ->
  child ∈ l -> f child = Ok true -> py_any f l = Ok true.
Proof.
  induction l as [| c l IH]; intros Hall Hin Hc.
  - by apply elem_of_nil in Hin.
  - simpl. destruct (Hall c) as [[|] Hb]; [left | by rewrite Hb |].
    rewrite Hb. apply elem_of_cons in Hin as [-> | Hin]; [congruence |].
    apply IH; [| done | done]. intros c' Hc'. apply Hall. by right.
Qed.

Lemma py_any_total (f : addr -> result bool) (l : list addr) :
  (forall c, c ∈ l -> exists b, f c = Ok b) -> exists b, py_any f l = Ok b.
Proof.
  induction l as [| c l IH]; intros Hall; simpl; [by exists false |].
  destruct (Hall c) as [[|] Hb]; [left | |]; rewrite Hb; [by exists true |].
  apply IH. intros c' Hc'. apply Hall. by right.
Qed.

(** A result of [isConnectedTo] is the reachability of [other] *)
Lemma isConnectedTo_sound (depth : nat) :
  forall (self other : addr) (b : bool),
    isConnectedTo depth st self other = Ok b ->
    (b = true <-> tc (edge st) self other).
Proof.
  induction depth as [| depth IH]; intros self other b; simpl; [discriminate |].
  destruct (st !! self) as [node |] eqn:En; [| discriminate].
  unfold isInChildren. case_bool_decide as Hin.
  - intros [= <-]. split; [intros _ | done].
    apply tc_once. by exists node.
  - intros Hany. destruct b.
    + split; [intros _ | done].
      destruct (py_any_true _ _ Hany) as (child & Hc & Hrun).
      eapply tc_l; [by exists node |]. by apply (IH child other true).
    + split; [discriminate |]. intros Htc. exfalso.
      pose proof (py_any_false _ _ Hany) as Hall.
      inversion Htc as [x y [node' [En' Hy]] | x y z [node' [En' Hy]] Hrest]; subst.
      * rewrite En in En'. injection En' as <-. contradiction.
      * rewrite En in En'. injection En' as <-.
        specialize (Hall y Hy). apply IH in Hall.
        destruct Hall as [_ Hall]. by specialize (Hall Hrest).
Qed.

(** With the units in [anc] above [self] on the current path, the depth
    that the descent from [self] needs is at most the number of the
    other units. *)
Lemma isConnectedTo_total (root other : addr) (depth : nat) :
  closed st -> acyclic_from st root ->
  forall (self : addr) (anc : gset addr),
    rtc (edge st) root self -> is_Some (st !! self) ->
    anc ⊆ dom st -> (forall a, a ∈ anc -> tc (edge st) a self) ->
    (card (dom st) <= card anc + depth)%nat ->
    exists b, isConnectedTo depth st self other = Ok b.
Proof.
  intros Hclosed Hacyc.
  induction depth as [| depth IH]; intros self anc Hreach [node En] Hsub Hanc Hsize.
  - exfalso.
    assert (self ∉ anc) as Hnot.
    { intros Hin. apply (Hacyc self Hreach). by apply Hanc. }
    assert (anc ⊂ dom st) as Hstrict.
    { split; [done |]. intros Hall. apply Hnot, Hall.
      apply elem_of_dom. by exists node. }
    apply subset_size in Hstrict. lia.
  - simpl. rewrite En. destruct (isInChildren node other); [by exists true |].
    apply py_any_total. intros child Hchild.
    assert (edge st self child) as Hedge by (by exists node).
    assert (self ∉ anc) as Hnot.
    { intros Hin. apply (Hacyc self Hreach). by apply Hanc. }
    apply (IH child ({[self]} ∪ anc)).
    + eapply rtc_r; done.
    + by apply (Hclosed self child).
    + apply union_subseteq. split; [| done].
      apply singleton_subseteq_l, elem_of_dom. by exists node.
    + intros a Ha. apply elem_of_union in Ha as [Ha | Ha].
      * apply elem_of_singleton in Ha as ->. by apply tc_once.
      * eapply tc_r; [by apply Hanc | done].
    + rewrite size_union by set_solver. rewrite size_singleton. lia.
Qed.

End Connectivity.

Lemma tc_edge_inv (st : gmap addr Node) (self other : addr) (node : Node) :
  st !! self = Some node ->
  tc (edge st) self other <->
  other ∈ children node
  \/ exists child, child ∈ children node /\ tc (edge st) child other.
Proof.
  intros En. split.
  - intros Htc.
    inversion Htc as [x y [node' [En' Hy]] | x y z [node' [En' Hy]] Hrest]; subst;
      rewrite En in En'; injection En' as <-; [by left | right; by exists y].
  - intros [Hin | (child & Hin & Hrest)].
    + apply tc_once. by exists node.
    + eapply tc_l; [by exists node | done].
Qed.

(** C7. On a store whose children lists are acyclic below [self],
    [isConnectedTo(other)] returns, given a recursion depth of at least the
    number of units, and what it returns is true exactly when [other] is
    in the children list of [self] or some child is connected to [other],
    that is, exactly when one or more children steps lead from [self] to
    [other]: true for a child, true for a child of a child, false for a
    unit that no descent reaches. *)
Theorem C7_isConnectedTo (st : gmap addr Node) (self other : addr) (node : Node)
    (depth : nat) :
  st !! self = Some node -> closed st -> acyclic_from st self ->
  (card (dom st) <= depth)%nat ->
  exists b,
    isConnectedTo depth st self other = Ok b
    /\ (b = true <-> tc (edge st) self other)
    /\ (b = true <->
        other ∈ children node
        \/ exists child, child ∈ children node
                         /\ isConnectedTo depth st child other = Ok true)
    /\ (other ∈ children node -> b = true)
    /\ (forall child cnode, child ∈ children node -> st !! child = Some cnode ->
                            other ∈ children cnode -> b = true)
    /\ (~ tc (edge st) self other -> b = false).
Proof.
  intros En Hclosed Hacyc Hdepth.
  destruct (isConnectedTo_total st self other depth Hclosed Hacyc self ∅)
    as [b Hrun]; [done | by exists node | set_solver | set_solver
                  | rewrite size_empty; lia |].
  pose proof (isConnectedTo_sound st depth self other b Hrun) as Hb.
  exists b. split; [exact Hrun |]. split; [exact Hb |].
  assert (Hchild : forall child, child ∈ children node ->
            (isConnectedTo depth st child other = Ok true
             <-> tc (edge st) child other)).
  { intros child Hin.
    assert (edge st self child) as Hedge by (by exists node).
    destruct (isConnectedTo_total st self other depth Hclosed Hacyc child ∅)
      as [bc Hc]; [by apply rtc_once | by apply (Hclosed self child)
                   | set_solver | set_solver | rewrite size_empty; lia |].
    pose proof (isConnectedTo_sound st depth child other bc Hc) as Hbc.
    rewrite Hc. split.
    - intros [= ->]. by apply Hbc.
    - intros Htc. f_equal. by apply Hbc. }
  split; [| split; [| split]].
  - rewrite Hb, (tc_edge_inv st self other node En). split.
    + intros [Hin | (child & Hin & Htc)]; [by left | right].
      exists child. split; [done | by apply Hchild].
    + intros [Hin | (child & Hin & Hc)]; [by left | right].
      exists child. split; [done | by apply Hchild].
  - intros Hin. apply Hb, tc_once. by exists node.
  - intros child cnode Hin Ec Hin'. apply Hb.
    eapply tc_l; [by exists node |]. apply tc_once. by exists cnode.
  - intros Hno. destruct b; [| done]. exfalso. by apply Hno, Hb.
Qed.

(** A rank that decreases along the children lists excludes cycles *)
Lemma acyclic_of_rank (st : gmap addr Node) (rank : addr -> nat) (self : addr) :
  (forall x y, edge st x y -> (rank y < rank x)%nat) -> acyclic_from st self.
Proof.
  intros Hrank x _ Hcyc.
  assert (forall a b, tc (edge st) a b -> (rank b < rank a)%nat) as Hlt.
  { intros a b Htc. induction Htc as [a b Hab | a b c Hab _ IH].
    - by apply Hrank.
    - apply Hrank in Hab. lia. }
  specialize (Hlt x x Hcyc). lia.
Qed.

Lemma chain_store_edges (x y : addr) :
  edge chain_store x y -> (x = 0 /\ y = 1)%nat \/ (x = 1 /\ y = 2)%nat.
Proof.
  intros (node & En & Hin). unfold chain_store in En.
  repeat (rewrite lookup_insert in En; case_decide; simplify_eq); simpl in Hin.
  - apply list_elem_of_singleton in Hin. by left.
  - apply list_elem_of_singleton in Hin. by right.
  - by apply elem_of_nil in Hin.
  - by apply elem_of_nil in Hin.
Qed.

Lemma chain_store_closed : closed chain_store.
Proof.
  intros x y Hedge.
  destruct (chain_store_edges x y Hedge) as [[-> ->] | [-> ->]];
    eexists; reflexivity.
Qed.

Lemma chain_store_acyclic : acyclic_from chain_store 0%nat.
Proof.
  apply (acyclic_of_rank _ (fun x => 3 - x)%nat).
  intros x y Hedge.
  destruct (chain_store_edges x y Hedge) as [[-> ->] | [-> ->]]; simpl; lia.
Qed.

Example isConnectedTo_child : isConnectedTo 4 chain_store 0%nat 1%nat = Ok true.
Proof. reflexivity. Qed.

Example isConnectedTo_grandchild : isConnectedTo 4 chain_store 0%nat 2%nat = Ok true.
Proof. reflexivity. Qed.

Example isConnectedTo_unrelated : isConnectedTo 4 chain_store 0%nat 3%nat = Ok false.
Proof. reflexivity. Qed.

(** On a cycle the descent for a unit that is not there uses up any depth *)
Lemma isConnectedTo_cycle (depth : nat) (self : addr) :
  (self = 0 \/ self = 1)%nat ->
  isConnectedTo depth cyclic_store self 2%nat = Raise RecursionError.
Proof.
  revert self. induction depth as [| depth IH]; intros self Hself; [reflexivity |].
  destruct Hself as [-> | ->]; simpl.
  - change (cyclic_store !! 0%nat) with (Some (unit_with [1%nat])).
    simpl. rewrite IH by (by right). reflexivity.
  - change (cyclic_store !! 1%nat) with (Some (unit_with [0%nat])).
    simpl. rewrite IH by (by left). reflexivity.
Qed.

Lemma C7_isConnectedTo_witness :
  exists b, isConnectedTo 4 chain_store 0%nat 2%nat = Ok b /\ b = true.
Proof.
  destruct (C7_isConnectedTo chain_store 0%nat 2%nat (unit_with [1%nat]) 4
              eq_refl chain_store_closed chain_store_acyclic (Nat.le_refl 4))
    as (b & Hrun & _ & _ & _ & Hgrand & _).
  exists b. split; [exact Hrun |].
  apply (Hgrand 1%nat (unit_with [2%nat])); [| reflexivity |]; set_solver.
Defined.

(** ** Mutation *)

Lemma scale_range_length (k m : nat) (rnd : nat -> R) (l : list R) :
  length (scale_range k m rnd l) = length l.
Proof. apply length_imap. Qed.

Lemma scale_range_lookup (k m : nat) (rnd : nat -> R) (l : list R) (i : nat) :
  scale_range k m rnd l !! i
  = (fun x => if decide (k <= i < k + m)%nat
              then x * (1 - fraction rnd (i - k)) else x) <$> l !! i.
Proof. unfold scale_range. by rewrite list_lookup_imap. Qed.

Lemma scale_range_none (k : nat) (rnd : nat -> R) (l : list R) :
  scale_range k 0 rnd l = l.
Proof.
  apply list_eq. intros i. rewrite scale_range_lookup.
  destruct (l !! i); simpl; [| done]. case_decide; [lia | done].
Qed.

Lemma scale_range_step (k m : nat) (rnd : nat -> R) (l : list R) (x : R) :
  l !! k = Some x ->
  scale_range (S k) m (fun j => rnd (S j)) (<[k := x * (1 - fraction rnd 0)]> l)
  = scale_range k (S m) rnd l.
Proof.
  intros Hk. apply list_eq. intros i. rewrite !scale_range_lookup.
  destruct (decide (i = k)) as [-> | Hne].
  - rewrite list_lookup_insert_eq by (by apply lookup_lt_Some in Hk).
    rewrite Hk. simpl. rewrite Nat.sub_diag.
    repeat case_decide; (done || lia).
  - rewrite list_lookup_insert_ne by done.
    destruct (l !! i); simpl; [| done].
    repeat case_decide; try lia; [| done].
    unfold fraction. by replace (S (i - S k)) with (i - k)%nat by lia.
Qed.

Lemma set_weights_id (node : Node) : set_weights (weights node) node = node.
Proof. by destruct node. Qed.

Lemma set_biases_id (node : Node) : set_biases (biases node) node = node.
Proof. by destruct node. Qed.

(** The first loop of [mutate], from position [k] on, for [m] rounds *)
Lemma mutate_weights_loop (self : addr) (m : nat) :
  forall (k : nat) (w : world) (node : Node),
    store w !! self = Some node -> (k + m <= length (weights node))%nat ->
    for_each (seq k m) (fun index =>
      change ← uniform (- MAX_MUTATION) MAX_MUTATION;
      on_node self (weights_imul index (1 - change))) w
    = (Ok tt,
       mkWorld (<[self := set_weights (scale_range k m (random w) (weights node)) node]>
                  (store w))
               (fun j => random w (m + j)%nat) (trace w)).
Proof.
  induction m as [| m IH]; intros k w node Hs Hlen.
  - simpl. rewrite scale_range_none, set_weights_id, insert_id by done.
    by destruct w.
  - destruct (lookup_lt_is_Some_2 (weights node) k) as [x Hx]; [lia |].
    simpl. unfold mbind at 1, M_bind at 1. unfold mbind at 1, M_bind at 1, uniform at 1.
    unfold on_node at 1. simpl. rewrite Hs. unfold weights_imul at 1. rewrite Hx.
    rewrite IH with (node := set_weights (<[k := x * (1 - fraction (random w) 0)]>
                                            (weights node)) node).
    + simpl. rewrite insert_insert_eq.
      by rewrite (scale_range_step k m (random w) (weights node) x Hx).
    + simpl. apply lookup_insert_eq.
    + simpl. rewrite length_insert. lia.
Qed.

(** The second loop of [mutate] *)
Lemma mutate_biases_loop (self : addr) (m : nat) :
  forall (k : nat) (w : world) (node : Node),
    store w !! self = Some node -> (k + m <= length (biases node))%nat ->
    for_each (seq k m) (fun index =>
      change ← uniform (- MAX_MUTATION) MAX_MUTATION;
      on_node self (biases_imul index (1 - change))) w
    = (Ok tt,
       mkWorld (<[self := set_biases (scale_range k m (random w) (biases node)) node]>
                  (store w))
               (fun j => random w (m + j)%nat) (trace w)).
Proof.
  induction m as [| m IH]; intros k w node Hs Hlen.
  - simpl. rewrite scale_range_none, set_biases_id, insert_id by done.
    by destruct w.
  - destruct (lookup_lt_is_Some_2 (biases node) k) as [x Hx]; [lia |].
    simpl. unfold mbind at 1, M_bind at 1. unfold mbind at 1, M_bind at 1, uniform at 1.
    unfold on_node at 1. simpl. rewrite Hs. unfold biases_imul at 1. rewrite Hx.
    rewrite IH with (node := set_biases (<[k := x * (1 - fraction (random w) 0)]>
                                           (biases node)) node).
    + simpl. rewrite insert_insert_eq.
      by rewrite (scale_range_step k m (random w) (biases node) x Hx).
    + simpl. apply lookup_insert_eq.
    + simpl. rewrite length_insert. lia.
Qed.

Lemma mutate_run (self : addr) (w : world) (node : Node) :
  store w !! self = Some node ->
  mutate self w
  = (Ok self,
     mkWorld (<[self := mutated (random w) node]> (store w))
             (fun j => random w (length (weights node) + (length (biases node) + j))%nat)
             (trace w)).
Proof.
  intros Hs. unfold mutate.
  unfold mbind at 1, M_bind at 1, read at 1. rewrite Hs.
  unfold mbind at 1, M_bind at 1.
  rewrite (mutate_weights_loop self _ 0 w node Hs) by lia.
  unfold mbind at 1, M_bind at 1, read at 1. simpl.
  rewrite lookup_insert_eq.
  unfold mbind at 1, M_bind at 1.
  rewrite (mutate_biases_loop self _ 0 _ _ (lookup_insert_eq _ _ _)) by (simpl; lia).
  simpl. rewrite insert_insert_eq. reflexivity.
Qed.

Lemma fraction_bounds (rnd : nat -> R) (k : nat) :
  0 <= rnd k <= 1 ->
  - MAX_MUTATION <= fraction rnd k <= MAX_MUTATION
  /\ 1 - MAX_MUTATION <= 1 - fraction rnd k <= 1 + MAX_MUTATION.
Proof. unfold fraction, MAX_MUTATION. intros H. lra. Qed.

(** C8. [mutate()] returns the reference it was called on; it multiplies
    every weight and every bias by [1 - f], each with a draw [f] of its
    own of [uniform(-MAX_MUTATION, MAX_MUTATION)], where [MAX_MUTATION] is
    0.5; [f] lies in [-MAX_MUTATION, MAX_MUTATION], so the factor lies in
    [1 - MAX_MUTATION, 1 + MAX_MUTATION].  (That [random()] is uniform on
    its range is the library's; its values are in the unit interval.) *)
Theorem C8_mutate (w : world) (self : addr) (node : Node) :
  store w !! self = Some node ->
  (forall k, 0 <= random w k <= 1) ->
  exists w' node',
    mutate self w = (Ok self, w')
    /\ store w' !! self = Some node'
    /\ (forall a, a <> self -> store w' !! a = store w !! a)
    /\ MAX_MUTATION = 0.5
    /\ (forall i x, weights node !! i = Some x ->
          let f := fraction (random w) i in
          weights node' !! i = Some (x * (1 - f))
          /\ - MAX_MUTATION <= f <= MAX_MUTATION
          /\ 1 - MAX_MUTATION <= 1 - f <= 1 + MAX_MUTATION)
    /\ (forall j x, biases node !! j = Some x ->
          let f := fraction (random w) (length (weights node) + j) in
          biases node' !! j = Some (x * (1 - f))
          /\ - MAX_MUTATION <= f <= MAX_MUTATION
          /\ 1 - MAX_MUTATION <= 1 - f <= 1 + MAX_MUTATION)
    /\ length (weights node') = length (weights node)
    /\ length (biases node') = length (biases node).
Proof.
  intros Hs Hrnd. eexists _, (mutated (random w) node).
  split; [by apply mutate_run |]. simpl.
  split; [apply lookup_insert_eq |].
  split; [intros a Ha; by rewrite lookup_insert_ne |].
  split; [reflexivity |].
  split; [| split; [| split]].
  - intros i x Hx. cbv zeta. split; [| by apply fraction_bounds].
    rewrite scale_range_lookup, Hx. simpl.
    apply lookup_lt_Some in Hx. case_decide; [| lia].
    by rewrite Nat.sub_0_r.
  - intros j x Hx. cbv zeta. split; [| by apply fraction_bounds].
    rewrite scale_range_lookup, Hx. simpl.
    apply lookup_lt_Some in Hx. case_decide; [| lia].
    unfold fraction. by rewrite Nat.sub_0_r.
  - apply scale_range_length.
  - apply scale_range_length.
Qed.

Lemma C8_mutate_witness :
  exists w' node',
    mutate 0%nat (mkWorld {[0%nat := mkNode 1 [2] [3] [] 0.1 0]} (fun _ => 0) [])
    = (Ok 0%nat, w')
    /\ store w' !! 0%nat = Some node'
    /\ weights node' !! 0%nat = Some (2 * (1 - - 0.5))
    /\ biases node' !! 0%nat = Some (3 * (1 - - 0.5)).
Proof.
  destruct (C8_mutate (mkWorld {[0%nat := mkNode 1 [2] [3] [] 0.1 0]} (fun _ => 0) [])
              0%nat (mkNode 1 [2] [3] [] 0.1 0))
    as (w' & node' & Hrun & Hs & _ & _ & Hw & Hb & _).
  { reflexivity. }
  { intros k. simpl. lra. }
  exists w', node'. split; [exact Hrun |]. split; [exact Hs |].
  destruct (Hw 0%nat 2 eq_refl) as [Hw0 _].
  destruct (Hb 0%nat 3 eq_refl) as [Hb0 _].
  rewrite Hw0, Hb0. unfold fraction, MAX_MUTATION. simpl.
  split; f_equal; lra.
Defined.

(** ** Preservation of the invariant *)

Lemma same_shape_refl (self : Node) : same_shape self self.
Proof. by repeat split. Qed.

Lemma same_shape_trans (a b c : Node) :
  same_shape a b -> same_shape b c -> same_shape a c.
Proof. intros (? & ? & ?) (? & ? & ?). repeat split; congruence. Qed.

Lemma same_shape_wf (before after : Node) :
  same_shape before after -> wf_Node before -> wf_Node after.
Proof. intros (? & ? & ?) [? ?]. split; congruence. Qed.

Lemma Node_call_shape (nums : list R) (self self' : Node) (r : result R) :
  Node_call nums self = (r, self') ->
  weights self' = weights self /\ biases self' = biases self
  /\ numInputs self' = numInputs self.
Proof.
  unfold Node_call, mbind, M_bind, get, of_result, modify, mret, M_ret.
  destruct (map3 _ _ _ _); intros [= <- <-]; done.
Qed.

Lemma gradient_loop_shape (rest : list R) :
  forall (index len : nat) (goal learnRate : R) (self self' : Node) (r : result unit),
    gradient_loop index rest len goal learnRate self = (r, self') ->
    same_shape self self'.
Proof.
  induction rest as [| num rest IH]; intros index len goal learnRate self self' r.
  - intros [= <- <-]. apply same_shape_refl.
  - simpl. unfold mbind at 1, M_bind at 1, get.
    destruct (weights self !! index) as [weight |] eqn:Ew;
      [| intros [= <- <-]; apply same_shape_refl].
    destruct (biases self !! index) as [bias |] eqn:Eb;
      [| intros [= <- <-]; apply same_shape_refl].
    unfold mbind at 1, M_bind at 1, of_result at 1.
    destruct (pydiv goal (INR len)) as [g | err];
      [| intros [= <- <-]; apply same_shape_refl].
    unfold mbind at 1, M_bind at 1, of_result at 1.
    destruct (gradientHelper self weight bias num g) as [[wc bc] | err];
      [| intros [= <- <-]; apply same_shape_refl].
    unfold mbind at 1, M_bind at 1, weights_isub. rewrite Ew.
    unfold mbind at 1, M_bind at 1, biases_isub. simpl. rewrite Eb.
    intros Hrun. apply IH in Hrun.
    eapply same_shape_trans; [| exact Hrun].
    repeat split; simpl; by rewrite length_insert.
Qed.

Lemma mutated_shape (rnd : nat -> R) (node : Node) : same_shape node (mutated rnd node).
Proof. repeat split; simpl; apply scale_range_length. Qed.

Lemma mutate_shape (self : addr) (w w' : world) (r : result addr) :
  mutate self w = (r, w') ->
  forall a node, store w !! a = Some node ->
    exists node', store w' !! a = Some node' /\ same_shape node node'.
Proof.
  intros Hrun a node Ha.
  destruct (store w !! self) as [me |] eqn:Es.
  - rewrite (mutate_run self w me Es) in Hrun. injection Hrun as <- <-. simpl.
    destruct (decide (a = self)) as [-> | Hne].
    + rewrite lookup_insert_eq. exists (mutated (random w) me).
      split; [done |]. assert (node = me) as -> by congruence.
      apply mutated_shape.
    + rewrite lookup_insert_ne by done. exists node.
      split; [done | apply same_shape_refl].
  - unfold mutate, mbind, M_bind, read in Hrun. rewrite Es in Hrun.
    injection Hrun as <- <-. exists node. split; [done | apply same_shape_refl].
Qed.

Lemma Node_deepcopy_shape (self : addr) (w w' : world) (r : result addr) :
  Node_deepcopy self w = (r, w') ->
  (forall a node, store w !! a = Some node -> store w' !! a = Some node)
  /\ (forall original, store w !! self = Some original -> wf_Node original ->
        exists a copy, r = Ok a /\ store w !! a = None
                       /\ store w' !! a = Some copy
                       /\ same_shape original copy /\ wf_Node copy).
Proof.
  unfold Node_deepcopy, mbind at 1, M_bind at 1, read.
  destruct (store w !! self) as [me |] eqn:Es.
  - intros Hrun.
    destruct (decide (length (weights me) = length (biases me))) as [Heq | Hne].
    + destruct (Node_new_ok (weights me) (biases me) (children me)
                              (sigmoid_value me) w Heq) as (a & Hnew & Hfresh).
      rewrite Hnew in Hrun. injection Hrun as <- <-. simpl. split.
      * intros a' node Ha'. rewrite lookup_insert_ne; [done |]. congruence.
      * intros original [= <-] Hwf. eexists a, _. split; [done |].
        split; [done |]. split; [apply lookup_insert_eq |].
        split; [by repeat split; simpl; destruct Hwf |].
        split; simpl; [done | congruence].
    + unfold Node_new, mbind, M_bind, of_result in Hrun.
      rewrite (Node_init_mismatch _ _ _ _ Hne) in Hrun. injection Hrun as <- <-.
      split; [done |]. intros original [= <-] [Hw Hb]. congruence.
  - intros [= <- <-]. split; [done |]. intros original [=].
Qed.

(** C9. The invariant [len(weights) == len(biases) == numInputs] of a unit
    of the store is kept by every operation, whatever its arguments and
    whether it returns or raises: [__call__] and [setChildren] leave the
    two lists as they are, [gradient] (for an input list of any length)
    and [mutate] keep their lengths, [__deepcopy__] leaves the unit as it
    is and yields a new unit with lists of the same lengths, and
    [numInputs] stays what it is.  [sigmoid] and [asDict] only read: they
    are functions of the unit, [asDict] handing out the two lists. *)
Theorem C9_invariant_preserved (w : world) (a : addr) (self : Node) :
  store w !! a = Some self -> wf_Node self ->
  (forall nums r self', Node_call nums self = (r, self') ->
     weights self' = weights self /\ biases self' = biases self
     /\ numInputs self' = numInputs self /\ wf_Node self')
  /\ (forall nums goal learnRate r self',
        gradient nums goal learnRate self = (r, self') ->
        same_shape self self' /\ wf_Node self')
  /\ (forall newChildren r self', setChildren newChildren self = (r, self') ->
        weights self' = weights self /\ biases self' = biases self
        /\ numInputs self' = numInputs self /\ wf_Node self')
  /\ (forall b r w', mutate b w = (r, w') ->
        exists self', store w' !! a = Some self'
                      /\ same_shape self self' /\ wf_Node self')
  /\ (forall b r w', Node_deepcopy b w = (r, w') ->
        store w' !! a = Some self
        /\ (b = a -> exists a' copy,
              r = Ok a' /\ a' <> a /\ store w' !! a' = Some copy
              /\ same_shape self copy /\ wf_Node copy))
  /\ asDict self = (weights self, biases self).
Proof.
  intros Hs Hwf. split; [| split; [| split; [| split; [| split]]]].
  - intros nums r self' Hrun.
    destruct (Node_call_shape nums self self' r Hrun) as (Hw & Hb & Hn).
    repeat (split; [done |]). destruct Hwf. split; congruence.
  - intros nums goal learnRate r self' Hrun.
    pose proof (gradient_loop_shape _ _ _ _ _ _ _ _ Hrun) as Hshape.
    split; [done | by apply (same_shape_wf self)].
  - intros newChildren r self' [= <- <-]. by repeat split; destruct Hwf.
  - intros b r w' Hrun.
    destruct (mutate_shape b w w' r Hrun a self Hs) as (self' & Hs' & Hshape).
    exists self'. split; [done |]. split; [done | by apply (same_shape_wf self)].
  - intros b r w' Hrun.
    destruct (Node_deepcopy_shape b w w' r Hrun) as [Hkeep Hcopy].
    split; [by apply Hkeep |]. intros ->.
    destruct (Hcopy self Hs Hwf) as (a' & copy & Hr & Hfresh & Hs' & Hshape & Hwf').
    exists a', copy. split; [done |]. split; [congruence | done].
  - reflexivity.
Qed.

Lemma C9_invariant_preserved_witness :
  exists r self',
    gradient [1; 2; 3] 0 1 (mkNode 2 [0; 7] [0; 9] [] 1 0) = (r, self')
    /\ wf_Node self'.
Proof.
  destruct (gradient [1; 2; 3] 0 1 (mkNode 2 [0; 7] [0; 9] [] 1 0))
    as [r self'] eqn:Hrun.
  exists r, self'. split; [reflexivity |].
  destruct (C9_invariant_preserved
              (mkWorld {[0%nat := mkNode 2 [0; 7] [0; 9] [] 1 0]} (fun _ => 0) [])
              0%nat (mkNode 2 [0; 7] [0; 9] [] 1 0))
    as (_ & Hgrad & _).
  - reflexivity.
  - split; reflexivity.
  - exact (proj2 (Hgrad _ _ _ _ _ Hrun)).
Defined.

(** ** The training step *)

Lemma for_each_invariant {St A : Type} (I : St -> Prop) (l : list A)
    (body : A -> M St unit) :
  (forall x s r s', x ∈ l -> I s -> body x s = (r, s') -> I s') ->
  forall s r s', I s -> for_each l body s = (r, s') -> I s'.
Proof.
  induction l as [| x l IH]; intros Hbody s r s' Hs.
  - intros [= <- <-]. done.
  - simpl. unfold mbind, M_bind.
    destruct (body x s) as [[[] | err] s1] eqn:Ex.
    + apply IH.
      * intros y s2 r2 s3 Hy. apply Hbody. by right.
      * apply (Hbody x s (Ok tt) s1); [left | done | done].
    + intros [= <- <-]. apply (Hbody x s (Raise err) s1); [left | done | done].
Qed.

(** Whatever [stepGeneration] does and however it ends, the trainer object
    is as before and so is every unit that is not among the visited. *)
Lemma stepGeneration_frame (inputs : list R) (goal : R) (t : GradientNetwork)
    (w : world) (r : result unit) (s' : tstate) :
  stepGeneration inputs goal (t, w) = (r, s') ->
  fst s' = t
  /\ random (snd s') = random w
  /\ forall a, a ∉ firstLayer t -> store (snd s') !! a = store w !! a.
Proof.
  unfold stepGeneration, mbind at 1, M_bind at 1, this at 1. simpl.
  apply (for_each_invariant
           (fun s => fst s = t /\ random (snd s) = random w
                     /\ forall a, a ∉ firstLayer t -> store (snd s) !! a = store w !! a));
    [| done].
  intros index [t1 w1] r1 s1 Hindex (Ht & Hrnd & Hframe). simpl in Ht. subst t1.
  simpl in Hrnd, Hframe.
  unfold mbind at 1, M_bind at 1, this at 1. simpl.
  unfold mbind at 1, M_bind at 1, of_result at 1, index_list at 1.
  destruct (nodes t !! 0%nat) as [layer |] eqn:El; [| by intros [= <- <-]].
  unfold mbind at 1, M_bind at 1, of_result at 1, index_list at 1.
  destruct (layer !! index) as [node |] eqn:En; [| by intros [= <- <-]].
  unfold mbind at 1, M_bind at 1, of_result at 1.
  destruct (pydiv goal (IZR (size t))) as [g | err]; [| by intros [= <- <-]].
  unfold mbind at 1, M_bind at 1, in_world, log, modify, on_node. simpl.
  assert (node ∈ firstLayer t) as Hnode.
  { unfold firstLayer. rewrite El. simpl.
    apply list_elem_of_lookup. exists index.
    rewrite lookup_take_lt; [done |].
    apply elem_of_seq in Hindex. lia. }
  destruct (store w1 !! node) as [unit |] eqn:Eu.
  - destruct (gradient inputs g (learnRate t) unit) as [r2 unit'].
    intros [= <- <-]. simpl. repeat split; [done |].
    intros a Ha. rewrite lookup_insert_ne; [by apply Hframe |].
    intros ->. contradiction.
  - intros [= <- <-]. simpl. done.
Qed.

Lemma pydiv_inv (x y v : R) : pydiv x y = Ok v -> y <> 0 /\ v = x / y.
Proof.
  unfold pydiv. destruct (Req_dec_T y 0); [done |]. by intros [= <-].
Qed.

Lemma gradient_call_run (inputs : list R) (g learnRate : R) (w : world)
    (node : addr) (unit : Node) :
  store w !! node = Some unit -> wf_Node unit -> gradient_in_range unit inputs g ->
  on_node node (gradient inputs g learnRate)
    (mkWorld (store w) (random w) (trace w ++ [Call_gradient node inputs g learnRate]))
  = (Ok tt, gradient_call inputs g learnRate w node).
Proof.
  intros Hs Hwf Hrange.
  destruct (gradient_spec unit inputs g learnRate Hwf Hrange) as (unit' & Hrun & _).
  unfold on_node, gradient_call. simpl. rewrite Hs, Hrun. done.
Qed.

(** The rounds [k, k + m) of the loop of [stepGeneration], on a layer whose
    units in these rounds are distinct, are in the store, satisfy the
    invariant and keep their powers in the float range *)
Lemma stepGeneration_rounds (inputs : list R) (goal : R) (t : GradientNetwork)
    (layer : list addr) :
  nodes t !! 0%nat = Some layer -> size t <> 0%Z ->
  forall (m k : nat) (w : world),
    (k + m <= length layer)%nat ->
    NoDup (take m (drop k layer)) ->
    (forall a, a ∈ take m (drop k layer) ->
               exists unit, store w !! a = Some unit /\ wf_Node unit
                            /\ gradient_in_range unit inputs (goal / IZR (size t))) ->
    let g := goal / IZR (size t) in
    let w' := foldl (gradient_call inputs g (learnRate t)) w (take m (drop k layer)) in
    for_each (seq k m) (fun index =>
      self ← this;
      layer ← of_result (index_list (nodes self) 0);
      node ← of_result (index_list layer index);
      g ← of_result (pydiv goal (IZR (size self)));
      in_world (log (Call_gradient node inputs g (learnRate self)));;
      in_world (on_node node (gradient inputs g (learnRate self)))) (t, w)
    = (Ok tt, (t, w'))
    /\ trace w'
       = trace w ++ map (fun node => Call_gradient node inputs g (learnRate t))
                        (take m (drop k layer)).
Proof.
  intros Hlayer Hsize. induction m as [| m IH]; intros k w Hlen Hdup Hunits; cbv zeta.
  - simpl. split; [done | by rewrite app_nil_r].
  - destruct (lookup_lt_is_Some_2 layer k) as [node Hnode]; [lia |].
    rewrite (drop_S layer node k Hnode) in Hunits, Hdup |- *.
    rewrite firstn_cons in Hunits, Hdup |- *.
    apply NoDup_cons in Hdup as [Hfresh Hdup].
    destruct (Hunits node) as (unit & Hs & Hwf & Hrange); [left |].
    pose proof (gradient_call_run inputs (goal / IZR (size t)) (learnRate t) w node unit
                  Hs Hwf Hrange) as Hcall.
    simpl seq. simpl for_each. unfold mbind at 1, M_bind at 1.
    unfold mbind at 1, M_bind at 1, this at 1. simpl fst.
    unfold mbind at 1, M_bind at 1, of_result at 1, index_list at 1.
    rewrite Hlayer.
    unfold mbind at 1, M_bind at 1, of_result at 1, index_list at 1.
    rewrite Hnode.
    unfold mbind at 1, M_bind at 1, of_result at 1.
    rewrite pydiv_ok by (by apply not_0_IZR).
    unfold mbind at 1, M_bind at 1, in_world at 1, log at 1, modify at 1.
    simpl. unfold in_world at 1. simpl. rewrite Hcall.
    destruct (IH (S k) (gradient_call inputs (goal / IZR (size t)) (learnRate t) w node))
      as [Hrun Htrace]; [lia | done | |].
    { intros a Ha. unfold gradient_call. rewrite Hs. simpl.
      rewrite lookup_insert_ne by (intros ->; contradiction).
      apply Hunits. by right. }
    split; [exact Hrun |].
    simpl. rewrite Htrace. unfold gradient_call at 1. rewrite Hs. simpl.
    by rewrite <- app_assoc.
Qed.

(** The rounds [k, k + m) of the loop, however they end: the calls of
    [gradient] that were made are those of a prefix of the units, each with
    [inputs], [goal/size] and [learnRate]; when the loop returns, of all of
    them. *)
Lemma stepGeneration_prefix (inputs : list R) (goal : R) (t : GradientNetwork) (m : nat) :
  forall (k : nat) (w : world) (r : result unit) (s' : tstate),
    for_each (seq k m) (fun index =>
      self ← this;
      layer ← of_result (index_list (nodes self) 0);
      node ← of_result (index_list layer index);
      g ← of_result (pydiv goal (IZR (size self)));
      in_world (log (Call_gradient node inputs g (learnRate self)));;
      in_world (on_node node (gradient inputs g (learnRate self)))) (t, w)
    = (r, s') ->
    let layer := default [] (nodes t !! 0%nat) in
    let g := goal / IZR (size t) in
    exists j : nat,
      (j <= m)%nat /\ fst s' = t
      /\ trace (snd s')
         = trace w ++ map (fun node => Call_gradient node inputs g (learnRate t))
                          (take j (drop k layer))
      /\ (r = Ok tt ->
          j = m /\ length (take m (drop k layer)) = m
          /\ snd s' = foldl (gradient_call inputs g (learnRate t)) w
                            (take m (drop k layer))).
Proof.
  induction m as [| m IH]; intros k w r s'; cbv zeta.
  - intros [= <- <-]. exists 0%nat. simpl. rewrite app_nil_r.
    split; [lia |]. split; [done |]. split; [done |]. intros _. done.
  - simpl seq. simpl for_each. unfold mbind at 1, M_bind at 1.
    unfold mbind at 1, M_bind at 1, this at 1. simpl fst.
    unfold mbind at 1, M_bind at 1, of_result at 1, index_list at 1.
    destruct (nodes t !! 0%nat) as [layer |] eqn:Hlayer; simpl default.
    2: { intros [= <- <-]. exists 0%nat. simpl. rewrite app_nil_r.
         split; [lia |]. split; [done |]. split; [done |]. intros [=]. }
    unfold mbind at 1, M_bind at 1, of_result at 1, index_list at 1.
    destruct (layer !! k) as [node |] eqn:Hnode.
    2: { intros [= <- <-]. exists 0%nat. simpl. rewrite app_nil_r.
         split; [lia |]. split; [done |]. split; [done |]. intros [=]. }
    unfold mbind at 1, M_bind at 1, of_result at 1.
    destruct (pydiv goal (IZR (size t))) as [g | err] eqn:Hdiv.
    2: { intros [= <- <-]. exists 0%nat. simpl. rewrite app_nil_r.
         split; [lia |]. split; [done |]. split; [done |]. intros [=]. }
    apply pydiv_inv in Hdiv as [_ ->].
    rewrite (drop_S layer node k Hnode), !firstn_cons.
    unfold mbind at 1, M_bind at 1, in_world at 1, log at 1, modify at 1.
    simpl. unfold in_world at 1, on_node at 1. simpl.
    destruct (store w !! node) as [unit |] eqn:Hs.
    2: { intros [= <- <-]. exists 1%nat. simpl.
         split; [lia |]. split; [done |]. split; [done |]. intros [=]. }
    destruct (gradient inputs (goal / IZR (size t)) (learnRate t) unit)
      as [[[] | err] unit'] eqn:Hgrad.
    2: { intros [= <- <-]. exists 1%nat. simpl.
         split; [lia |]. split; [done |]. split; [done |]. intros [=]. }
    intros Hrun. apply IH in Hrun as (j & Hj & Ht & Htrace & Hok).
    simpl in Htrace, Hok.
    exists (S j). split; [lia |]. split; [done |]. split.
    + rewrite Htrace. simpl. by rewrite <- app_assoc.
    + intros Hr. destruct (Hok Hr) as (-> & Hlen & Hw). split; [done |].
      split; [simpl; by rewrite Hlen |].
      rewrite Hw. simpl. f_equal. unfold gradient_call. by rewrite Hs, Hgrad.
Qed.

(** C5. A call of [stepGeneration(inputs, goal)] calls [gradient] on the
    units [nodes[0][0]], [nodes[0][1]], ... in turn, each with [inputs]
    itself, the goal [goal/size] and the [learnRate] of the trainer, [size]
    being [nodesInLayer * numLayers] as the constructor sets it; an exception
    ends the calls early, and a call of [stepGeneration] that returns has
    made them for every index [i < nodesInLayer].  It returns when
    [nodes[0]] holds [nodesInLayer] distinct units whose powers are floats
    and [size] is not 0.  However the call ends, a unit of another layer
    (one that is not also among the visited units of layer 0) has the
    weights and biases it had before. *)
Theorem C5_stepGeneration (t : GradientNetwork) (w : world) (inputs : list R)
    (goal : R) :
  let g := goal / IZR (size t) in
  (forall r s',
     stepGeneration inputs goal (t, w) = (r, s') ->
     fst s' = t
     /\ (exists j : nat,
           (j <= Z.to_nat (nodesInLayer t))%nat
           /\ trace (snd s')
              = trace w ++ map (fun node => Call_gradient node inputs g (learnRate t))
                               (take j (firstLayer t))
           /\ (r = Ok tt ->
               j = Z.to_nat (nodesInLayer t)
               /\ length (firstLayer t) = Z.to_nat (nodesInLayer t)
               /\ snd s' = foldl (gradient_call inputs g (learnRate t)) w (firstLayer t)))
     /\ forall l other j a unit,
          l <> 0%nat -> nodes t !! l = Some other -> other !! j = Some a ->
          a ∉ firstLayer t -> store w !! a = Some unit ->
          exists unit', store (snd s') !! a = Some unit'
                        /\ weights unit' = weights unit
                        /\ biases unit' = biases unit)
  /\ (forall layer,
        nodes t !! 0%nat = Some layer ->
        (Z.to_nat (nodesInLayer t) <= length layer)%nat ->
        ((0 < nodesInLayer t)%Z -> size t <> 0%Z) ->
        NoDup (firstLayer t) ->
        (forall a, a ∈ firstLayer t ->
                   exists unit, store w !! a = Some unit /\ wf_Node unit
                                /\ gradient_in_range unit inputs g) ->
        exists w', stepGeneration inputs goal (t, w) = (Ok tt, (t, w')))
  /\ (forall nodes0 width0 value0 nodesInLayer numLayers maxIter learnRate,
        size (GradientNetwork_init nodes0 width0 value0 nodesInLayer numLayers
                                   maxIter learnRate)
        = (nodesInLayer * numLayers)%Z).
Proof.
  intros g. split; [| split; [| reflexivity]].
  - intros r s' Hrun.
    destruct (stepGeneration_frame inputs goal t w r s' Hrun) as (Ht & _ & Hframe).
    split; [exact Ht |]. split.
    + unfold stepGeneration, mbind at 1, M_bind at 1, this at 1 in Hrun.
      simpl fst in Hrun. unfold range in Hrun.
      apply stepGeneration_prefix in Hrun as (j & Hj & _ & Htrace & Hok).
      rewrite drop_0 in Htrace, Hok.
      exists j. split; [done |]. split.
      * unfold firstLayer. rewrite take_take.
        replace (j `min` Z.to_nat (nodesInLayer t))%nat with j by lia. exact Htrace.
      * intros Hr. destruct (Hok Hr) as (-> & Hlen & Hw).
        split; [done |]. split; [exact Hlen | exact Hw].
    + intros l other j a unit _ _ _ Ha Hs.
      exists unit. by rewrite (Hframe a Ha).
  - intros layer Hlayer Hlen Hsize Hdup Hunits.
    assert (Hfirst : firstLayer t = take (Z.to_nat (nodesInLayer t)) (drop 0 layer)).
    { unfold firstLayer. by rewrite Hlayer. }
    destruct (decide (0 < nodesInLayer t)%Z) as [Hpos | Hneg].
    + destruct (stepGeneration_rounds inputs goal t layer Hlayer (Hsize Hpos)
                  (Z.to_nat (nodesInLayer t)) 0 w) as [Hrun _];
        [lia | by rewrite <- Hfirst | by rewrite <- Hfirst |].
      eexists. exact Hrun.
    + assert (Z.to_nat (nodesInLayer t) = 0%nat) as Hzero by lia.
      exists w. unfold stepGeneration, mbind, M_bind, this, range. simpl.
      by rewrite Hzero.
Qed.

Lemma C5_stepGeneration_witness :
  exists w',
    stepGeneration [1] 0
      (mkGradientNetwork [[0%nat]; [1%nat]] 1 0 10 0.1 2,
       mkWorld (<[0%nat := mkNode 1 [0] [0] [] 1 0]> {[1%nat := mkNode 1 [5] [6] [] 1 0]})
               (fun _ => 0) [])
    = (Ok tt, (mkGradientNetwork [[0%nat]; [1%nat]] 1 0 10 0.1 2, w'))
    /\ trace w' = [Call_gradient 0%nat [1] (0 / IZR 2) 0.1]
    /\ exists unit', store w' !! 1%nat = Some unit'
                     /\ weights unit' = [5] /\ biases unit' = [6].
Proof.
  destruct (C5_stepGeneration
              (mkGradientNetwork [[0%nat]; [1%nat]] 1 0 10 0.1 2)
              (mkWorld (<[0%nat := mkNode 1 [0] [0] [] 1 0]>
                          {[1%nat := mkNode 1 [5] [6] [] 1 0]})
                       (fun _ => 0) [])
              [1] 0)
    as (Hcalls & Hreturns & _).
  destruct (Hreturns [0%nat]) as (w' & Hrun).
  - reflexivity.
  - simpl. lia.
  - simpl. lia.
  - apply NoDup_singleton.
  - intros a Ha. apply list_elem_of_singleton in Ha as ->.
    exists (mkNode 1 [0] [0] [] 1 0). split; [reflexivity |].
    split; [split; reflexivity |].
    intros i Hi _. simpl in Hi. assert (i = 0%nat) as -> by lia.
    apply helper_in_range_small; simpl; [lia | lra | lra].
  - exists w'. split; [exact Hrun |].
    destruct (Hcalls _ _ Hrun) as (_ & (j & _ & Htrace & Hok) & Hother).
    destruct (Hok eq_refl) as (-> & _ & _).
    split; [exact Htrace |].
    apply (Hother 1%nat [1%nat] 0%nat 1%nat (mkNode 1 [5] [6] [] 1 0));
      [lia | reflexivity | reflexivity | | reflexivity].
    intros Hin. apply list_elem_of_singleton in Hin. lia.
Defined.

(** Not every call of [stepGeneration] calls [gradient] for each index:
    with the units [Node([-3.0], [0.0], [], 0.1)] and
    [Node([1.0], [0.0], [], 0.1)] in layer 0 and the inputs [[4000.0]], the
    call for the first unit raises [OverflowError] at [e ** 1200.0], and
    [gradient] of the second unit is not called. *)
Lemma C5_stepGeneration_counterexample :
  exists w',
    stepGeneration [4000] 0
      (mkGradientNetwork [[0%nat; 1%nat]] 2 0 10 0.1 2,
       mkWorld (<[0%nat := mkNode 1 [-3] [0] [] 0.1 0]>
                  {[1%nat := mkNode 1 [1] [0] [] 0.1 0]})
               (fun _ => 0) [])
    = (Raise OverflowError, (mkGradientNetwork [[0%nat; 1%nat]] 2 0 10 0.1 2, w'))
    /\ trace w' = [Call_gradient 0%nat [4000] (0 / IZR 2) 0.1]
    /\ forall g learnRate, Call_gradient 1%nat [4000] g learnRate ∉ trace w'.
Proof.
  eexists. split; [| split].
  - unfold stepGeneration, mbind at 1, M_bind at 1, this at 1. simpl fst.
    unfold range. simpl seq. simpl for_each. unfold mbind at 1, M_bind at 1.
    unfold mbind at 1, M_bind at 1, this at 1. simpl fst.
    unfold mbind at 1, M_bind at 1, of_result at 1, index_list at 1. simpl.
    unfold mbind at 1, M_bind at 1, of_result at 1, index_list at 1. simpl.
    unfold mbind at 1, M_bind at 1, of_result at 1.
    rewrite pydiv_ok by (apply not_0_IZR; lia).
    unfold mbind at 1, M_bind at 1, in_world at 1, log at 1, modify at 1.
    simpl. unfold in_world at 1, on_node at 1. simpl.
    change ((<[0%nat := mkNode 1 [-3] [0] [] 0.1 0]>
               ({[1%nat := mkNode 1 [1] [0] [] 0.1 0]} : gmap addr Node)) !! 0%nat)
      with (Some (mkNode 1 [-3] [0] [] 0.1 0)).
    lazy beta iota. rewrite gradient_overflow_example. reflexivity.
  - reflexivity.
  - intros g learnRate Hin. simpl in Hin.
    apply list_elem_of_singleton in Hin. discriminate.
Qed.

(** ** Training until the tolerance is met *)

Lemma count_snoc (p : event -> bool) (tr : list event) (ev : event) :
  count p (tr ++ [ev]) = (count p tr + (if p ev then 1 else 0))%nat.
Proof.
  unfold count. rewrite List.filter_app, length_app. simpl.
  by destruct (p ev).
Qed.

Lemma stepGeneration_counts (inputs : list R) (goal : R) (s s' : tstate)
    (r : result unit) :
  stepGeneration inputs goal s = (r, s') ->
  forwards s' = forwards s /\ steps s' = steps s.
Proof.
  unfold stepGeneration, mbind at 1, M_bind at 1, this at 1.
  apply (for_each_invariant
           (fun s1 => forwards s1 = forwards s /\ steps s1 = steps s)); [| done].
  intros index s1 r1 s2 _ [HF HS].
  unfold mbind at 1, M_bind at 1, this at 1.
  unfold mbind at 1, M_bind at 1, of_result at 1.
  destruct (index_list (nodes (fst s1)) 0) as [layer | err]; [| by intros [= <- <-]].
  unfold mbind at 1, M_bind at 1, of_result at 1.
  destruct (index_list layer index) as [node | err]; [| by intros [= <- <-]].
  unfold mbind at 1, M_bind at 1, of_result at 1.
  destruct (pydiv goal (IZR (size (fst s1)))) as [g | err]; [| by intros [= <- <-]].
  unfold mbind at 1, M_bind at 1, in_world, log, modify, on_node. simpl.
  destruct (store (snd s1) !! node) as [unit |].
  - destruct (gradient inputs g (learnRate (fst s1)) unit) as [r2 unit'].
    intros [= <- <-]. unfold forwards, steps in *. simpl.
    rewrite !count_snoc. simpl. lia.
  - intros [= <- <-]. unfold forwards, steps in *. simpl.
    rewrite !count_snoc. simpl. lia.
Qed.

Section TrainerProperties.

Variable NeuralNetwork_call : list R -> M (GradientNetwork * gmap addr Node) unit.

Lemma forward_counts (inputs : list R) (s s' : tstate) (r : result unit) :
  forward NeuralNetwork_call inputs s = (r, s') ->
  forwards s' = S (forwards s) /\ steps s' = steps s.
Proof.
  unfold forward, mbind, M_bind, in_world, log, modify, in_objects. simpl.
  destruct (NeuralNetwork_call inputs (fst s, store (snd s))) as [r1 [t1 st1]].
  intros [= <- <-]. unfold forwards, steps. simpl. rewrite !count_snoc. simpl. lia.
Qed.

Lemma step_counts (inputs : list R) (goal : R) (s s' : tstate) (r : result unit) :
  step inputs goal s = (r, s') ->
  forwards s' = forwards s /\ steps s' = S (steps s).
Proof.
  unfold step, mbind, M_bind, in_world at 1, log, modify. simpl.
  intros Hrun. apply stepGeneration_counts in Hrun.
  unfold forwards, steps in *. simpl in Hrun. rewrite !count_snoc in Hrun.
  simpl in Hrun. lia.
Qed.

Lemma print_counts (ev : event) (s : tstate) :
  is_forward ev = false -> is_step ev = false ->
  forwards (fst s, snd (log ev (snd s))) = forwards s
  /\ steps (fst s, snd (log ev (snd s))) = steps s.
Proof.
  intros HF HS. unfold forwards, steps, log, modify. simpl.
  rewrite !count_snoc, HF, HS. lia.
Qed.

(** A round of the loop that meets the criterion ends the loop there *)
Lemma evolve_loop_stop (left iterationCounter : nat) (inputs : list R)
    (goal tolerance : R) (t : GradientNetwork) (w : world) :
  converged goal tolerance t ->
  evolve_loop NeuralNetwork_call (S left) iterationCounter inputs goal tolerance (t, w)
  = (Ok iterationCounter,
     (t, mkWorld (store w) (random w)
                 (trace w ++ [Print_value_at_iteration iterationCounter (net_value t)]))).
Proof.
  intros Hconv. simpl. unfold mbind at 1, M_bind at 1, this at 1. simpl.
  destruct (Rlt_dec _ _) as [_ | Hno]; [reflexivity | contradiction].
Qed.

(** A round that does not meet it runs the forward pass, prints on every
    fifth round, runs the training step and goes on to the next round *)
Lemma evolve_loop_continue (left iterationCounter : nat) (inputs : list R)
    (goal tolerance : R) (s : tstate) :
  ~ converged goal tolerance (fst s) ->
  evolve_loop NeuralNetwork_call (S left) iterationCounter inputs goal tolerance s
  = (forward NeuralNetwork_call inputs;;
     self ← this;
     (if decide (iterationCounter mod 5 = 0)%nat then
        in_world (log (Print_value_at_iteration iterationCounter (net_value self)))
      else mret tt);;
     step inputs goal;;
     evolve_loop NeuralNetwork_call left (S iterationCounter) inputs goal tolerance) s.
Proof.
  intros Hno. simpl. unfold mbind at 1, M_bind at 1, this at 1.
  destruct (Rlt_dec _ _) as [Hconv | _]; [contradiction | reflexivity].
Qed.


(** The loop, when it returns: every round it made was a whole round, and
    it stopped before the cap only in a state that meets the criterion. *)
Lemma evolve_loop_returns (inputs : list R) (goal tolerance : R) (left : nat) :
  forall (iterationCounter k : nat) (s s' : tstate),
    evolve_loop NeuralNetwork_call left iterationCounter inputs goal tolerance s
    = (Ok k, s') ->
    exists made : nat,
      k = (iterationCounter + made)%nat /\ (made <= left)%nat
      /\ forwards s' = (forwards s + made)%nat
      /\ steps s' = (steps s + made)%nat
      /\ ((made < left)%nat -> converged goal tolerance (fst s')).
Proof.
  induction left as [| left IH]; intros c k s s'.
  - intros [= <- <-]. exists 0%nat. repeat split; lia.
  - destruct (Rlt_dec (Rabs (net_value (fst s) - goal)) (Rabs (tolerance * goal)))
      as [Hconv | Hno].
    + destruct s as [t w]. rewrite evolve_loop_stop by done.
      intros [= <- <-]. exists 0%nat.
      unfold forwards, steps. simpl. rewrite !count_snoc. simpl.
      repeat split; try lia. done.
    + rewrite evolve_loop_continue by done.
      unfold mbind at 1, M_bind at 1.
      destruct (forward NeuralNetwork_call inputs s) as [[[] | err] s1] eqn:E1;
        [| done].
      apply forward_counts in E1; destruct E1 as [F1 S1].
      unfold mbind at 1, M_bind at 1, this at 1.
      unfold mbind at 1, M_bind at 1.
      assert (exists s2, (if decide (c mod 5 = 0)%nat
                          then in_world (log (Print_value_at_iteration c (net_value (fst s1))))
                          else mret tt) s1 = (Ok tt, s2)
                         /\ forwards s2 = forwards s1 /\ steps s2 = steps s1)
        as (s2 & -> & F2 & S2).
      { destruct (decide (c mod 5 = 0)%nat).
        - eexists. split; [reflexivity |]. by apply print_counts.
        - by exists s1. }
      unfold mbind at 1, M_bind at 1.
      destruct (step inputs goal s2) as [[[] | err] s3] eqn:E3; [| done].
      apply step_counts in E3; destruct E3 as [F3 S3].
      intros Hrun. apply IH in Hrun as (made & Hk & Hle & F4 & S4 & Hconv).
      exists (S made). repeat split; try lia. intros Hlt. apply Hconv. lia.
Qed.


(** The loop, when it raises: the exception came from the forward pass or
    from the training step of its last round, so that at least one forward
    pass was made, and at most one more than training steps. *)
Lemma evolve_loop_raises (inputs : list R) (goal tolerance : R) (left : nat) :
  forall (iterationCounter : nat) (err : exn) (s s' : tstate),
    evolve_loop NeuralNetwork_call left iterationCounter inputs goal tolerance s
    = (Raise err, s') ->
    exists made trained : nat,
      forwards s' = (forwards s + made)%nat
      /\ steps s' = (steps s + trained)%nat
      /\ (1 <= made <= left)%nat /\ (made <= trained + 1)%nat
      /\ (trained <= made)%nat.
Proof.
  induction left as [| left IH]; intros c err s s'; [done |].
  destruct (Rlt_dec (Rabs (net_value (fst s) - goal)) (Rabs (tolerance * goal)))
    as [Hconv | Hno].
  - destruct s as [t w]. by rewrite evolve_loop_stop.
  - rewrite evolve_loop_continue by done.
    unfold mbind at 1, M_bind at 1.
    destruct (forward NeuralNetwork_call inputs s) as [[[] | err1] s1] eqn:E1;
      apply forward_counts in E1; destruct E1 as [F1 S1].
    2: { intros [= <- <-]. exists 1%nat, 0%nat. repeat split; lia. }
    unfold mbind at 1, M_bind at 1, this at 1.
    unfold mbind at 1, M_bind at 1.
    assert (exists s2, (if decide (c mod 5 = 0)%nat
                        then in_world (log (Print_value_at_iteration c (net_value (fst s1))))
                        else mret tt) s1 = (Ok tt, s2)
                       /\ forwards s2 = forwards s1 /\ steps s2 = steps s1)
      as (s2 & -> & F2 & S2).
    { destruct (decide (c mod 5 = 0)%nat).
      - eexists. split; [reflexivity |]. by apply print_counts.
      - by exists s1. }
    unfold mbind at 1, M_bind at 1.
    destruct (step inputs goal s2) as [[[] | err3] s3] eqn:E3;
      apply step_counts in E3; destruct E3 as [F3 S3].
    2: { intros [= <- <-]. exists 1%nat, 1%nat. repeat split; lia. }
    intros Hrun. apply IH in Hrun as (made & trained & F4 & S4 & H1 & H2 & H3).
    exists (S made), (S trained). repeat split; lia.
Qed.


End TrainerProperties.


(** * Further properties of the code *)

(** ** [Node.gradient] and [Node.gradientHelper] *)

(** X2. Whatever the unit, the arguments and the outcome, [gradient]
    writes entries of [weights] and [biases] at positions below
    [len(nums)] only: [numInputs], [children], [sigmoid_value], [value] and
    the entries from [len(nums)] on are kept. *)
Theorem gradient_footprint (self self' : Node) (nums : list R) (goal learnRate : R)
    (r : result unit) :
  gradient nums goal learnRate self = (r, self') ->
  numInputs self' = numInputs self
  /\ children self' = children self
  /\ sigmoid_value self' = sigmoid_value self
  /\ value self' = value self
  /\ forall i, (length nums <= i)%nat ->
       weights self' !! i = weights self !! i
       /\ biases self' !! i = biases self !! i.
Proof.
  intros Hrun. apply gradient_loop_footprint in Hrun as (Hn & Hc & Hs & Hv & Hframe).
  repeat (split; [done |]). intros i Hi. apply Hframe. right. simpl. lia.
Qed.

Lemma gradient_footprint_witness :
  exists r self',
    gradient [1] 3 1 (mkNode 0 [1; 2] [5] [7%nat] 1 9) = (r, self')
    /\ children self' = [7%nat] /\ value self' = 9
    /\ weights self' !! 1%nat = Some 2.
Proof.
  destruct (gradient [1] 3 1 (mkNode 0 [1; 2] [5] [7%nat] 1 9)) as [r self'] eqn:Hrun.
  exists r, self'. split; [reflexivity |].
  destruct (gradient_footprint _ _ _ _ _ _ Hrun) as (_ & Hc & _ & Hv & Hframe).
  split; [exact Hc |]. split; [exact Hv |].
  exact (proj1 (Hframe 1%nat (Nat.le_refl 1))).
Defined.

(** X3. An input list longer than [numInputs] raises no [IndexError]: when
    the powers computed for the first [numInputs] inputs are floats, every
    pair is updated, the inputs beyond [numInputs] are not read, and the
    per-example goal is [goal/len(nums)], with the length of the whole
    list. *)
Theorem gradient_long_input (self : Node) (nums : list R) (goal learnRate : R) :
  wf_Node self -> (numInputs self <= length nums)%nat ->
  gradient_in_range self nums goal ->
  exists self',
    gradient nums goal learnRate self = (Ok tt, self')
    /\ length (weights self') = numInputs self
    /\ length (biases self') = numInputs self
    /\ forall i, (i < numInputs self)%nat ->
         let dB := dB_formula (sigmoid_value self) (numInputs self)
                     (nth i (weights self) 0) (nth i (biases self) 0)
                     (nth i nums 0) (goal / INR (length nums)) in
         nth i (weights self') 0 = nth i (weights self) 0 - learnRate * (dB * nth i nums 0)
         /\ nth i (biases self') 0 = nth i (biases self) 0 - learnRate * dB.
Proof.
  intros Hwf Hlong Hrange.
  destruct (gradient_spec self nums goal learnRate Hwf Hrange)
    as (self' & Hrun & _ & _ & _ & _ & Hlw & Hlb & Hupd & _).
  destruct Hwf as [Hw Hb].
  exists self'. split; [exact Hrun |].
  split; [congruence |]. split; [congruence |].
  intros i Hi. apply (Hupd i); lia.
Qed.

Lemma gradient_long_input_witness :
  exists self',
    gradient [1; 8; 9] 0 1 (mkNode 1 [0] [0] [] 1 0) = (Ok tt, self')
    /\ length (weights self') = 1%nat.
Proof.
  destruct (gradient_long_input (mkNode 1 [0] [0] [] 1 0) [1; 8; 9] 0 1)
    as (self' & Hrun & Hlen & _).
  - split; reflexivity.
  - simpl. lia.
  - intros i _ Hi. simpl in Hi. assert (i = 0%nat) as -> by lia. simpl.
    apply helper_in_range_small; [lia | lra | lra].
  - exists self'. split; [exact Hrun | exact Hlen].
Defined.

(** X5. On a unit with at least one input and for arguments whose three
    powers are floats, the bias partial that [gradientHelper] returns is
    the derivative of the squared error [(c - goal)^2] in [bias] multiplied
    by [b/(b - 1)], a factor above 1 ([b = e^(-a*sigmoid_value) + 1]): it
    has the sign of the derivative and a larger size; the weight partial is
    the bias partial times the input. *)
Theorem gradientHelper_overshoot (self : Node) (weight bias num goal : R) :
  (0 < numInputs self)%nat ->
  helper_in_range (sigmoid_value self) (numInputs self) weight bias num goal ->
  let b := exp (- (weight * num + bias) * sigmoid_value self) + 1 in
  exists dW dB derivative,
    gradientHelper self weight bias num goal = Ok (dW, dB)
    /\ derivable_pt_lim (fun t => squared_error self weight t num goal) bias derivative
    /\ dB = b / (b - 1) * derivative
    /\ 1 < b / (b - 1)
    /\ dW = dB * num.
Proof.
  intros Hn Hrange b.
  exists (dW_formula (sigmoid_value self) (numInputs self) weight bias num goal),
         (dB_formula (sigmoid_value self) (numInputs self) weight bias num goal),
         (analytic_dB self weight bias num goal).
  split; [by apply gradientHelper_ok |].
  split; [by apply squared_error_derive_bias |].
  pose proof (exp_pos (- (weight * num + bias) * sigmoid_value self)) as He.
  pose proof (INR_pos_neq _ Hn) as Hi.
  split; [| split; [| reflexivity]].
  - unfold dB_formula, analytic_dB. fold b. field. subst b. split; lra.
  - subst b.
    replace ((exp (- (weight * num + bias) * sigmoid_value self) + 1)
             / (exp (- (weight * num + bias) * sigmoid_value self) + 1 - 1))
      with (1 + / exp (- (weight * num + bias) * sigmoid_value self))
      by (field; lra).
    pose proof (Rinv_0_lt_compat _ He). lra.
Qed.

Lemma gradientHelper_overshoot_witness :
  exists dW dB derivative,
    gradientHelper (mkNode 1 [0] [0] [] 1 0) 0 0 1 0 = Ok (dW, dB)
    /\ dB = (exp (- (0 * 1 + 0) * 1) + 1) / (exp (- (0 * 1 + 0) * 1) + 1 - 1) * derivative.
Proof.
  destruct (gradientHelper_overshoot (mkNode 1 [0] [0] [] 1 0) 0 0 1 0)
    as (dW & dB & derivative & Hrun & _ & Heq & _).
  - simpl. lia.
  - simpl. apply helper_in_range_small; [lia | lra | lra].
  - exists dW, dB, derivative. split; [exact Hrun | exact Heq].
Defined.

(** ** [Node.sigmoid] and [Node.__call__] *)

(** X6. Called on an input list of any length whose powers are floats, a
    unit that satisfies the invariant raises nothing: it returns, and
    stores in [value], the sum of the activations over the first
    [min(len(nums), numInputs)] positions; inputs beyond [numInputs] are not
    read, and with fewer inputs the later weights and biases are not. *)
Theorem forward_any_input_length (self : Node) (nums : list R) :
  wf_Node self -> call_in_range self nums ->
  exists total,
    Node_call nums self = (Ok total, set_value total self)
    /\ total
       = sum_below (length nums `min` numInputs self) (fun i =>
           sigmoid_formula (sigmoid_value self) (numInputs self)
             (nth i (weights self) 0 * nth i nums 0 + nth i (biases self) 0))
    /\ (nums = [] -> total = 0).
Proof.
  intros Hwf Hrange. eexists. split; [by apply Node_call_run |].
  split; [reflexivity |]. by intros ->.
Qed.

Lemma forward_any_input_length_witness :
  exists total,
    Node_call [1; 2; 3] (mkNode 2 [1; 1] [0; 0] [] 0.1 0)
    = (Ok total, set_value total (mkNode 2 [1; 1] [0; 0] [] 0.1 0))
    /\ total = 0 + sigmoid_formula 0.1 2 (1 * 1 + 0) + sigmoid_formula 0.1 2 (1 * 2 + 0).
Proof.
  destruct (forward_any_input_length (mkNode 2 [1; 1] [0; 0] [] 0.1 0) [1; 2; 3])
    as (total & Hrun & Htotal & _).
  - split; reflexivity.
  - intros i _ Hi. simpl in Hi. unfold sigmoid_in_range.
    destruct i as [| [| i]]; [| | lia]; simpl; apply exp_nonpos_in_range; lra.
  - exists total. split; [exact Hrun | exact Htotal].
Defined.

(** X7. [__call__] does not read the [value] it overwrites: a second call
    with the same inputs ends as the first did, with the same result and
    the same unit, whether the call returns or raises. *)
Theorem forward_twice (self self' : Node) (nums : list R) (r : result R) :
  Node_call nums self = (r, self') -> Node_call nums self' = (r, self').
Proof.
  unfold Node_call, mbind, M_bind, get, of_result, modify, mret, M_ret.
  destruct (map3 _ (weights self) (biases self) nums) as [xs | err] eqn:Hrun.
  - intros [= <- <-]. simpl.
    change (map3 (fun weight bias num => sigmoid (set_value (py_sum xs) self)
                                                 (weight * num + bias))
                 (weights self) (biases self) nums)
      with (map3 (fun weight bias num => sigmoid self (weight * num + bias))
                 (weights self) (biases self) nums).
    by rewrite Hrun.
  - intros [= <- <-]. by rewrite Hrun.
Qed.

Lemma forward_twice_witness :
  exists r self',
    Node_call [1] (mkNode 1 [2] [3] [] 0.1 0) = (r, self')
    /\ Node_call [1] self' = (r, self').
Proof.
  destruct (Node_call [1] (mkNode 1 [2] [3] [] 0.1 0)) as [r self'] eqn:Hrun.
  exists r, self'. split; [reflexivity |].
  exact (forward_twice _ _ _ _ Hrun).
Defined.



(** ** [Node.isConnectedTo] *)

Lemma py_any_mono (f f' : addr -> result bool) (l : list addr) (b : bool) :
  (forall c b', c ∈ l -> f c = Ok b' -> f' c = Ok b') ->
  py_any f l = Ok b -> py_any f' l = Ok b.
Proof.
  induction l as [| c l IH]; intros Hff'; simpl; [done |].
  destruct (f c) as [[|] | err] eqn:Ec; [| | done].
  - rewrite (Hff' c true) by (done || left). done.
  - rewrite (Hff' c false) by (done || left).
    apply IH. intros c' b' Hc'. apply Hff'. by right.
Qed.

(** X11. A result of [isConnectedTo] does not depend on the recursion depth
    that was available: what a call returns at some depth it returns at
    every larger depth. *)
Theorem isConnectedTo_depth_mono (st : gmap addr Node) (depth depth' : nat)
    (self other : addr) (b : bool) :
  isConnectedTo depth st self other = Ok b -> (depth <= depth')%nat ->
  isConnectedTo depth' st self other = Ok b.
Proof.
  revert depth' self b.
  induction depth as [| depth IH]; intros depth' self b; simpl; [done |].
  intros Hrun Hle. destruct depth' as [| depth']; [lia |]. simpl.
  destruct (st !! self) as [node |]; [| done].
  destruct (isInChildren node other); [done |].
  apply (py_any_mono (fun child => isConnectedTo depth st child other)); [| done].
  intros c b' _ Hc. apply IH; [done | lia].
Qed.

Lemma isConnectedTo_depth_mono_witness :
  isConnectedTo 7 chain_store 0%nat 2%nat = Ok true.
Proof.
  apply (isConnectedTo_depth_mono chain_store 3 7); [reflexivity | lia].
Defined.

Lemma py_any_outcomes (f : addr -> result bool) (l : list addr) :
  (forall c, c ∈ l -> (exists b, f c = Ok b) \/ f c = Raise RecursionError) ->
  (exists b, py_any f l = Ok b) \/ py_any f l = Raise RecursionError.
Proof.
  induction l as [| c l IH]; intros Hall; simpl; [left; by exists false |].
  destruct (Hall c (list_elem_of_here c l)) as [[[|] Hb] | Hr];
    try rewrite Hb; try rewrite Hr.
  - left. by exists true.
  - apply IH. intros c' Hc'. apply Hall. by right.
  - by right.
Qed.

Lemma isConnectedTo_outcomes (st : gmap addr Node) (other : addr) (depth : nat) :
  closed st ->
  forall self, is_Some (st !! self) ->
    (exists b, isConnectedTo depth st self other = Ok b)
    \/ isConnectedTo depth st self other = Raise RecursionError.
Proof.
  intros Hclosed. induction depth as [| depth IH]; intros self [node En]; simpl.
  - by right.
  - rewrite En. destruct (isInChildren node other); [left; by exists true |].
    apply py_any_outcomes. intros c Hc. apply IH.
    apply (Hclosed self c). by exists node.
Qed.

Lemma py_any_raise (f : addr -> result bool) (l : list addr) (err : exn) :
  (forall c, c ∈ l -> f c = Ok false \/ f c = Raise err) ->
  (exists c, c ∈ l /\ f c = Raise err) ->
  py_any f l = Raise err.
Proof.
  induction l as [| c l IH]; intros Hall (c0 & Hin & Hc0).
  - by apply elem_of_nil in Hin.
  - simpl. destruct (Hall c (list_elem_of_here c l)) as [Hc | Hc]; rewrite Hc; [| done].
    apply IH.
    + intros c' Hc'. apply Hall. by right.
    + apply elem_of_cons in Hin as [-> | Hin]; [congruence |]. by exists c0.
Qed.

(** X12. On a unit that lies on a cycle of children lists, a query for a
    unit that no descent reaches never returns: whatever the depth
    available, it ends in [RecursionError]. *)
Theorem isConnectedTo_on_cycle (st : gmap addr Node) (other : addr) (depth : nat) :
  closed st ->
  forall self,
    tc (edge st) self self -> ~ tc (edge st) self other ->
    isConnectedTo depth st self other = Raise RecursionError.
Proof.
  intros Hclosed. induction depth as [| depth IH]; intros self Hcyc Hno; [done |].
  assert (exists y, edge st self y /\ tc (edge st) y y /\ ~ tc (edge st) y other)
    as (y & Hedge & Hy & Hyno).
  { inversion Hcyc as [x z Hxz | x z z' Hxz Hrest]; subst.
    - exists self. done.
    - exists z. split; [done |]. split.
      + eapply tc_r; done.
      + intros Hreach. apply Hno. eapply tc_l; done. }
  destruct Hedge as (node & En & Hin).
  simpl. rewrite En. unfold isInChildren. case_bool_decide as Hchild.
  { exfalso. apply Hno, tc_once. by exists node. }
  apply py_any_raise.
  - intros c Hc.
    assert (edge st self c) as Hsc by (by exists node).
    destruct (isConnectedTo_outcomes st other depth Hclosed c (Hclosed self c Hsc))
      as [[b Hb] | Hr]; [| by right].
    left. rewrite Hb. f_equal. destruct b; [| done]. exfalso.
    apply Hno. eapply tc_l; [done |].
    by apply (isConnectedTo_sound st depth c other true).
  - exists y. split; [done |]. by apply IH.
Qed.

Lemma isConnectedTo_on_cycle_witness :
  isConnectedTo 50 cyclic_store 0%nat 2%nat = Raise RecursionError.
Proof.
  assert (forall x y, edge cyclic_store x y -> (x = 0 /\ y = 1)%nat \/ (x = 1 /\ y = 0)%nat)
    as Hedges.
  { intros x y (node & En & Hin). unfold cyclic_store in En.
    repeat (rewrite lookup_insert in En; case_decide; simplify_eq); simpl in Hin.
    - apply list_elem_of_singleton in Hin. by left.
    - apply list_elem_of_singleton in Hin. by right. }
  apply isConnectedTo_on_cycle.
  - intros x y Hxy. destruct (Hedges x y Hxy) as [[-> ->] | [-> ->]]; eexists; reflexivity.
  - apply (tc_l _ _ 1%nat); [| apply tc_once].
    + exists (unit_with [1%nat]). split; [reflexivity | set_solver].
    + exists (unit_with [0%nat]). split; [reflexivity | set_solver].
  - intros Hreach.
    assert (forall a b, tc (edge cyclic_store) a b -> (b < 2)%nat) as Hlt.
    { intros a b Htc. induction Htc as [a b Hab | a b c Hab _ IH]; [| done].
      destruct (Hedges a b Hab) as [[-> ->] | [-> ->]]; lia. }
    specialize (Hlt _ _ Hreach). lia.
Defined.

(** ** [randomNode] and [Node.mutate] *)

Lemma draw_run (lo hi : R) (l : list nat) :
  forall w : world,
    fold_right (fun (_ : nat) (rest : M world (list R)) =>
                  x ← uniform lo hi; xs ← rest; mret (x :: xs))
               (mret []) l w
    = (Ok (map (fun j => lo + (hi - lo) * random w j) (seq 0 (length l))),
       mkWorld (store w) (fun j => random w (length l + j)%nat) (trace w)).
Proof.
  induction l as [| i l IH]; intros w.
  - simpl. by destruct w.
  - simpl fold_right. unfold mbind at 1, M_bind at 1, uniform at 1.
    unfold mbind at 1, M_bind at 1. rewrite IH. simpl.
    unfold mret, M_ret. f_equal. f_equal. f_equal.
    rewrite <- seq_shift, map_map. reflexivity.
Qed.

(** X14. [randomNode(numInputs)] never raises: for draws of [random()] in
    the unit interval it allocates a new unit that satisfies the invariant,
    with [max(numInputs, 0)] weights in [MIN_WEIGHT, MAX_WEIGHT] and as many
    biases in [MIN_BIAS, MAX_BIAS], the default [sigmoid_value], no children
    and [value] 0; it uses two draws per input and leaves the other units
    alone. *)
Theorem randomNode_spec (n : Z) (w : world) :
  (forall k, 0 <= random w k <= 1) ->
  exists a node w',
    randomNode n w = (Ok a, w')
    /\ store w !! a = None /\ store w' !! a = Some node
    /\ (forall b, b <> a -> store w' !! b = store w !! b)
    /\ wf_Node node /\ numInputs node = Z.to_nat n
    /\ children node = [] /\ sigmoid_value node = DEFAULT_SIGMOID_VALUE
    /\ value node = 0
    /\ (forall x, x ∈ weights node -> MIN_WEIGHT <= x <= MAX_WEIGHT)
    /\ (forall x, x ∈ biases node -> MIN_BIAS <= x <= MAX_BIAS)
    /\ (forall k, random w' k = random w (2 * Z.to_nat n + k)%nat).
Proof.
  intros Hrnd. unfold randomNode.
  unfold mbind at 1, M_bind at 1. rewrite draw_run.
  unfold mbind at 1, M_bind at 1. rewrite draw_run. simpl random.
  unfold range. rewrite !length_seq.
  set (m := Z.to_nat n).
  set (ws := map (fun j => MIN_WEIGHT + (MAX_WEIGHT - MIN_WEIGHT) * random w j) (seq 0 m)).
  set (bs := map (fun j => MIN_BIAS + (MAX_BIAS - MIN_BIAS) * random w (m + j)%nat)
                 (seq 0 m)).
  assert (length ws = length bs) as Hlen by (subst ws bs; by rewrite !length_map).
  destruct (Node_new_ok ws bs [] DEFAULT_SIGMOID_VALUE
              (mkWorld (store w) (fun j => random w (m + (m + j))%nat) (trace w)) Hlen)
    as (a & Hnew & Hfresh).
  exists a. eexists _, _. split; [exact Hnew |]. simpl in *.
  split; [done |]. split; [apply lookup_insert_eq |].
  split; [intros b Hb; by rewrite lookup_insert_ne |].
  split; [split; simpl; congruence |].
  split; [simpl; subst ws; by rewrite length_map, length_seq |].
  do 3 (split; [reflexivity |]).
  split; [| split].
  - intros x Hx. subst ws. apply list_elem_of_fmap in Hx as (j & -> & _).
    unfold MIN_WEIGHT, MAX_WEIGHT. specialize (Hrnd j). lra.
  - intros x Hx. subst bs. apply list_elem_of_fmap in Hx as (j & -> & _).
    unfold MIN_BIAS, MAX_BIAS. specialize (Hrnd (m + j)%nat). lra.
  - intros k. f_equal. lia.
Qed.

Lemma randomNode_spec_witness :
  exists a node w',
    randomNode 2 (mkWorld ∅ (fun _ => 0.5) []) = (Ok a, w')
    /\ store w' !! a = Some node /\ numInputs node = 2%nat.
Proof.
  destruct (randomNode_spec 2 (mkWorld ∅ (fun _ => 0.5) []))
    as (a & node & w' & Hrun & _ & Hs & _ & _ & Hn & _).
  - intros k. simpl. lra.
  - exists a, node, w'. split; [exact Hrun |]. split; [exact Hs | exact Hn].
Defined.

Lemma scaled_magnitude (x c : R) :
  1 - MAX_MUTATION <= c <= 1 + MAX_MUTATION ->
  (1 - MAX_MUTATION) * Rabs x <= Rabs (x * c) <= (1 + MAX_MUTATION) * Rabs x
  /\ 0 <= x * (x * c)
  /\ (x * c = 0 <-> x = 0).
Proof.
  unfold MAX_MUTATION. intros Hc.
  rewrite Rabs_mult, (Rabs_pos_eq c) by lra.
  pose proof (Rabs_pos x) as Hx.
  split; [split; nra |]. split; [nra |].
  split; [| intros ->; lra].
  intros H. apply Rmult_integral in H as [H | H]; [done | lra].
Qed.

(** X15. [mutate] keeps the sign of every weight and bias and changes its
    size by at most [MAX_MUTATION] of it: the new value is zero exactly when
    the old one is, and its absolute value lies between
    [(1 - MAX_MUTATION)] and [(1 + MAX_MUTATION)] times the old one.
    [numInputs], [children], [sigmoid_value] and [value] are kept, and the
    call uses one draw per weight and per bias. *)
Theorem mutate_sign_and_size (w : world) (self : addr) (node : Node) :
  store w !! self = Some node ->
  (forall k, 0 <= random w k <= 1) ->
  exists w' node',
    mutate self w = (Ok self, w')
    /\ store w' !! self = Some node'
    /\ numInputs node' = numInputs node /\ children node' = children node
    /\ sigmoid_value node' = sigmoid_value node /\ value node' = value node
    /\ (forall i x, weights node !! i = Some x ->
          exists x', weights node' !! i = Some x'
            /\ (1 - MAX_MUTATION) * Rabs x <= Rabs x' <= (1 + MAX_MUTATION) * Rabs x
            /\ 0 <= x * x' /\ (x' = 0 <-> x = 0))
    /\ (forall i x, biases node !! i = Some x ->
          exists x', biases node' !! i = Some x'
            /\ (1 - MAX_MUTATION) * Rabs x <= Rabs x' <= (1 + MAX_MUTATION) * Rabs x
            /\ 0 <= x * x' /\ (x' = 0 <-> x = 0))
    /\ (forall k, random w' k
                  = random w (length (weights node) + (length (biases node) + k))%nat).
Proof.
  intros Hs Hrnd. eexists _, (mutated (random w) node).
  split; [by apply mutate_run |]. simpl.
  split; [apply lookup_insert_eq |].
  do 4 (split; [reflexivity |]).
  split; [| split; [| reflexivity]].
  - intros i x Hx. eexists. split.
    + rewrite scale_range_lookup, Hx. simpl.
      apply lookup_lt_Some in Hx. case_decide; [reflexivity | lia].
    + apply scaled_magnitude. by apply fraction_bounds.
  - intros i x Hx. eexists. split.
    + rewrite scale_range_lookup, Hx. simpl.
      apply lookup_lt_Some in Hx. case_decide; [reflexivity | lia].
    + apply scaled_magnitude.
      apply (fraction_bounds (fun j => random w (length (weights node) + j)%nat)).
      apply Hrnd.
Qed.

Lemma mutate_sign_and_size_witness :
  exists w' node',
    mutate 0%nat (mkWorld {[0%nat := mkNode 1 [-2] [3] [] 0.1 0]} (fun _ => 1) [])
    = (Ok 0%nat, w')
    /\ store w' !! 0%nat = Some node'
    /\ exists x', weights node' !! 0%nat = Some x' /\ 0 <= -2 * x'.
Proof.
  destruct (mutate_sign_and_size
              (mkWorld {[0%nat := mkNode 1 [-2] [3] [] 0.1 0]} (fun _ => 1) [])
              0%nat (mkNode 1 [-2] [3] [] 0.1 0))
    as (w' & node' & Hrun & Hs & _ & _ & _ & _ & Hw & _).
  - reflexivity.
  - intros k. simpl. lra.
  - exists w', node'. split; [exact Hrun |]. split; [exact Hs |].
    destruct (Hw 0%nat (-2) eq_refl) as (x' & Hx' & _ & Hsign & _).
    exists x'. split; [exact Hx' | exact Hsign].
Defined.

(** ** [GradientNetwork.evolve] and [GradientNetwork.evolveTillTolerance] *)

Section TrainerRuns.

Variable NeuralNetwork_call : list R -> M (GradientNetwork * gmap addr Node) unit.

(** One round of [evolve]: a forward pass, and a training step unless the
    forward pass raised *)
Lemma evolve_round_counts (inputs : list R) (goal : R) (s s' : tstate)
    (r : result unit) :
  (forward NeuralNetwork_call inputs;;
   self ← this;
   in_world (log (Print_current_iteration_value (net_value self)));;
   step inputs goal) s = (r, s') ->
  exists trained : nat,
    forwards s' = S (forwards s) /\ steps s' = (steps s + trained)%nat
    /\ (trained <= 1)%nat /\ (r = Ok tt -> trained = 1%nat).
Proof.
  unfold mbind at 1, M_bind at 1.
  destruct (forward NeuralNetwork_call inputs s) as [[[] | err] s1] eqn:E1;
    apply forward_counts in E1; destruct E1 as [F1 S1].
  2: { intros [= <- <-]. exists 0%nat. repeat split; try lia. intros [=]. }
  unfold mbind at 1, M_bind at 1, this at 1.
  unfold mbind at 1, M_bind at 1.
  destruct (print_counts (Print_current_iteration_value (net_value (fst s1))) s1)
    as [F2 S2]; [done | done |].
  unfold in_world at 1. simpl.
  intros Hrun. apply step_counts in Hrun as [F3 S3].
  exists 1%nat. unfold forwards, steps in *. simpl in *. repeat split; lia.
Qed.

Lemma evolve_rounds_list (inputs : list R) (goal : R) (l : list nat) :
  forall (s s' : tstate) (r : result unit),
    for_each l (fun _ =>
      forward NeuralNetwork_call inputs;;
      self ← this;
      in_world (log (Print_current_iteration_value (net_value self)));;
      step inputs goal) s = (r, s') ->
    exists made trained : nat,
      forwards s' = (forwards s + made)%nat /\ steps s' = (steps s + trained)%nat
      /\ (trained <= made <= length l)%nat
      /\ (r = Ok tt -> made = length l /\ trained = length l).
Proof.
  induction l as [| x l IH]; intros s s' r.
  - intros [= <- <-]. exists 0%nat, 0%nat. simpl.
    split; [lia |]. split; [lia |]. split; [lia |]. intros _. lia.
  - simpl for_each. unfold mbind at 1, M_bind at 1.
    match goal with
    | |- context [match ?body s with _ => _ end] =>
        destruct (body s) as [[[] | err] s1] eqn:E1
    end; apply evolve_round_counts in E1 as (t1 & F1 & S1 & Hle1 & Hok1).
    + specialize (Hok1 eq_refl). subst t1.
      intros Hrun. apply IH in Hrun as (made & trained & F2 & S2 & Hle & Hok).
      exists (S made), (S trained). simpl.
      split; [lia |]. split; [lia |]. split; [lia |].
      intros Hr. specialize (Hok Hr). lia.
    + intros [= <- <-]. exists 1%nat, t1. simpl.
      split; [lia |]. split; [lia |]. split; [lia |]. intros [=].
Qed.

(** X16. [evolve] makes at most [maxIter] rounds, each a forward pass
    followed by a training step, and has no early exit: when it returns,
    it has made exactly [max(maxIter, 0)] forward passes and as many
    training steps; fewer only when a round raised. *)
Theorem evolve_rounds (inputs : list R) (goal : R) (t : GradientNetwork) (w : world)
    (r : result unit) (s' : tstate) :
  evolve NeuralNetwork_call inputs goal (t, w) = (r, s') ->
  exists made trained : nat,
    forwards s' = (forwards (t, w) + made)%nat
    /\ steps s' = (steps (t, w) + trained)%nat
    /\ (trained <= made <= Z.to_nat (maxIter t))%nat
    /\ (r = Ok tt -> made = Z.to_nat (maxIter t) /\ trained = Z.to_nat (maxIter t)).
Proof.
  unfold evolve, mbind at 1, M_bind at 1, this at 1. simpl fst.
  intros Hrun. apply evolve_rounds_list in Hrun.
  unfold range in Hrun. by rewrite length_seq in Hrun.
Qed.

(** X17. With [goal = 0] the stopping criterion is never met, and
    [evolveTillTolerance] never returns: either all the 1000 rounds are
    made, each a forward pass and a training step, and the final report
    divides by the goal and raises [ZeroDivisionError]; or a call in one of
    the rounds raised, and its exception is the outcome. *)
Theorem evolveTillTolerance_zero_goal (inputs : list R) (tolerance : R)
    (s s' : tstate) (r : result unit) :
  evolveTillTolerance NeuralNetwork_call inputs 0 tolerance s = (r, s') ->
  let effective := if Rle_dec tolerance 0 then 0.1 else tolerance in
  (forall tol self, ~ converged 0 tol self)
  /\ ((r = Raise ZeroDivisionError
       /\ evolve_loop NeuralNetwork_call MAXIMUM_ITERATION 0 inputs 0 effective s
          = (Ok 1000%nat, s')
       /\ forwards s' = (forwards s + 1000)%nat
       /\ steps s' = (steps s + 1000)%nat)
      \/ (exists (err : exn) (made trained : nat),
            r = Raise err
            /\ evolve_loop NeuralNetwork_call MAXIMUM_ITERATION 0 inputs 0 effective s
               = (Raise err, s')
            /\ forwards s' = (forwards s + made)%nat
            /\ steps s' = (steps s + trained)%nat
            /\ (1 <= made <= 1000)%nat /\ (made <= trained + 1)%nat
            /\ (trained <= made)%nat)).
Proof.
  intros Hrun effective.
  assert (forall tol self, ~ converged 0 tol self) as Hnever.
  { intros tol self. unfold converged. rewrite Rmult_0_r, Rabs_R0.
    pose proof (Rabs_pos (net_value self - 0)). lra. }
  split; [exact Hnever |].
  revert Hrun. unfold evolveTillTolerance. fold effective.
  unfold mbind at 1, M_bind at 1.
  destruct (evolve_loop _ _ _ _ _ _ s) as [[k | err] s1] eqn:Eloop.
  - unfold mbind at 1, M_bind at 1, this at 1.
    unfold mbind at 1, M_bind at 1, of_result at 1. rewrite pydiv_zero.
    intros [= <- <-]. left.
    destruct (evolve_loop_returns _ _ _ _ _ _ _ _ _ Eloop)
      as (made & Hk & Hle & HF & HS & Hconv).
    assert (made = MAXIMUM_ITERATION) as ->.
    { destruct (Nat.eq_dec made MAXIMUM_ITERATION) as [| Hne]; [done |].
      exfalso. apply (Hnever effective (fst s1)). apply Hconv. lia. }
    simpl in Hk. subst k. unfold MAXIMUM_ITERATION in *. done.
  - intros [= <- <-]. right.
    destruct (evolve_loop_raises _ _ _ _ _ _ _ _ _ Eloop)
      as (made & trained & HF & HS & H1 & H2 & H3).
    exists err, made, trained. unfold MAXIMUM_ITERATION in *. done.
Qed.

(** X18. When [evolveTillTolerance] returns, the goal is not 0 and the
    last thing printed is the report, with the number [k <= 1000] of rounds
    made, each a forward pass and a training step, and the percentage
    [|(value - goal) * 100 / goal|] of the final value; and if [k < 1000],
    the final value meets the criterion for the tolerance in use. *)
Theorem evolveTillTolerance_report (inputs : list R) (goal tolerance : R)
    (s s' : tstate) :
  evolveTillTolerance NeuralNetwork_call inputs goal tolerance s = (Ok tt, s') ->
  goal <> 0
  /\ exists (k : nat) (printed : list event),
       (k <= 1000)%nat
       /\ forwards s' = (forwards s + k)%nat /\ steps s' = (steps s + k)%nat
       /\ trace (snd s')
          = printed ++ [Print_reached
                          (Rabs ((net_value (fst s') - goal) * 100 / goal)) k]
       /\ ((k < 1000)%nat ->
           converged goal (if Rle_dec tolerance 0 then 0.1 else tolerance) (fst s')).
Proof.
  unfold evolveTillTolerance, mbind at 1, M_bind at 1.
  destruct (evolve_loop _ _ _ _ _ _ s) as [[k | err] s1] eqn:Eloop; [| done].
  apply evolve_loop_returns in Eloop as (made & Hk & Hle & HF & HS & Hconv).
  unfold mbind at 1, M_bind at 1, this at 1.
  unfold mbind at 1, M_bind at 1, of_result at 1.
  destruct (Req_dec_T goal 0) as [-> | Hgoal]; [by rewrite pydiv_zero |].
  rewrite pydiv_ok by done. unfold in_world, log, modify. simpl.
  intros [= <-]. split; [done |].
  exists k, (trace (snd s1)). simpl in Hk. subst k.
  unfold MAXIMUM_ITERATION in *. unfold forwards, steps in *. simpl.
  rewrite !count_snoc. simpl.
  split; [lia |]. split; [lia |]. split; [lia |]. split; [done | exact Hconv].
Qed.

End TrainerRuns.

Lemma evolve_rounds_witness :
  exists r s',
    evolve sample_forward [1] 1 (sample_trainer, sample_world) = (r, s')
    /\ (forwards s' <= 10)%nat.
Proof.
  destruct (evolve sample_forward [1] 1 (sample_trainer, sample_world))
    as [r s'] eqn:Hrun.
  exists r, s'. split; [reflexivity |].
  destruct (evolve_rounds sample_forward [1] 1 sample_trainer sample_world r s' Hrun)
    as (made & trained & HF & _ & Hle & _).
  rewrite HF. change (forwards (sample_trainer, sample_world)) with 0%nat.
  simpl in Hle. lia.
Defined.

Lemma evolveTillTolerance_zero_goal_witness :
  exists r s',
    evolveTillTolerance sample_forward [1] 0 0.1 (sample_trainer, sample_world) = (r, s')
    /\ (r = Raise ZeroDivisionError
        \/ exists err, evolve_loop sample_forward MAXIMUM_ITERATION 0 [1] 0 0.1
                                   (sample_trainer, sample_world) = (Raise err, s')).
Proof.
  destruct (evolveTillTolerance sample_forward [1] 0 0.1 (sample_trainer, sample_world))
    as [r s'] eqn:Hrun.
  exists r, s'. split; [reflexivity |].
  destruct (evolveTillTolerance_zero_goal sample_forward [1] 0.1 _ _ _ Hrun)
    as [_ [(Hr & _) | (err & made & trained & _ & Hloop & _)]].
  - by left.
  - right. exists err. revert Hloop.
    destruct (Rle_dec 0.1 0) as [Habs | _]; [lra | done].
Defined.

Lemma sample_run_returns :
  evolveTillTolerance sample_forward [1] 1 0.1 (sample_trainer, sample_world)
  = (Ok tt,
     (sample_trainer,
      mkWorld (store sample_world) (random sample_world)
              [Print_value_at_iteration 0 1;
               Print_reached (Rabs ((1 - 1) * 100 / 1)) 0])).
Proof.
  unfold evolveTillTolerance.
  destruct (Rle_dec 0.1 0) as [Habs | _]; [lra |].
  unfold mbind at 1, M_bind at 1, MAXIMUM_ITERATION.
  rewrite evolve_loop_stop.
  - unfold mbind at 1, M_bind at 1, this at 1. simpl fst.
    unfold mbind at 1, M_bind at 1, of_result at 1.
    rewrite pydiv_ok by lra. reflexivity.
  - unfold converged. simpl. replace (1 - 1) with 0 by lra. rewrite Rabs_R0.
    apply Rabs_pos_lt. lra.
Qed.

Lemma evolveTillTolerance_report_witness :
  exists s',
    evolveTillTolerance sample_forward [1] 1 0.1 (sample_trainer, sample_world)
    = (Ok tt, s')
    /\ exists (k : nat) (printed : list event),
         (k <= 1000)%nat
         /\ trace (snd s')
            = printed ++ [Print_reached (Rabs ((net_value (fst s') - 1) * 100 / 1)) k].
Proof.
  eexists. split; [exact sample_run_returns |].
  destruct (evolveTillTolerance_report sample_forward [1] 1 0.1 _ _ sample_run_returns)
    as (_ & k & printed & Hk & _ & _ & Htrace & _).
  exists k, printed. split; [exact Hk | exact Htrace].
Defined.

(** ** [GradientNetwork.stepGeneration] *)

Lemma for_each_app {St A : Type} (l1 l2 : list A) (body : A -> M St unit) (s : St) :
  for_each (l1 ++ l2) body s
  = match for_each l1 body s with
    | (Ok _, s1) => for_each l2 body s1
    | (Raise err, s1) => (Raise err, s1)
    end.
Proof.
  revert s. induction l1 as [| x l1 IH]; intros s; [done |].
  simpl. unfold mbind, M_bind. destruct (body x s) as [[[] | err] s1]; [apply IH | done].
Qed.

(** X19. When [nodes[0]] holds fewer units than [nodesInLayer], distinct
    ones whose powers are floats, [stepGeneration] trains every unit of
    [nodes[0]] and then raises [IndexError]: the updates made before the
    exception stay.  When there is no layer 0 at all, it raises
    [IndexError] at once. *)
Theorem stepGeneration_short_layer (t : GradientNetwork) (w : world)
    (inputs : list R) (goal : R) :
  (forall layer,
     nodes t !! 0%nat = Some layer ->
     (length layer < Z.to_nat (nodesInLayer t))%nat ->
     size t <> 0%Z ->
     NoDup layer ->
     (forall a, a ∈ layer ->
                exists unit, store w !! a = Some unit /\ wf_Node unit
                             /\ gradient_in_range unit inputs (goal / IZR (size t))) ->
     stepGeneration inputs goal (t, w)
     = (Raise IndexError,
        (t, foldl (gradient_call inputs (goal / IZR (size t)) (learnRate t)) w layer)))
  /\ (nodes t !! 0%nat = None -> (0 < nodesInLayer t)%Z ->
      stepGeneration inputs goal (t, w) = (Raise IndexError, (t, w))).
Proof.
  split.
  - intros layer Hlayer Hshort Hsize Hnodup Hunits.
    unfold stepGeneration, mbind at 1, M_bind at 1, this at 1. simpl fst.
    unfold range.
    replace (Z.to_nat (nodesInLayer t))
      with (length layer + S (Z.to_nat (nodesInLayer t) - S (length layer)))%nat by lia.
    rewrite seq_app, for_each_app.
    destruct (stepGeneration_rounds inputs goal t layer Hlayer Hsize
                (length layer) 0 w) as [Hrun _]; [lia | | |].
    { by rewrite drop_0, firstn_all. }
    { intros a Ha. apply Hunits. rewrite drop_0, firstn_all in Ha. done. }
    rewrite drop_0, firstn_all in Hrun. rewrite Hrun.
    simpl seq. simpl for_each. unfold mbind at 1, M_bind at 1.
    unfold mbind at 1, M_bind at 1, this at 1. simpl fst.
    unfold mbind at 1, M_bind at 1, of_result at 1, index_list at 1. rewrite Hlayer.
    unfold mbind at 1, M_bind at 1, of_result at 1, index_list at 1.
    rewrite (lookup_ge_None_2 layer (length layer)) by lia. reflexivity.
  - intros Hnone Hpos.
    unfold stepGeneration, mbind at 1, M_bind at 1, this at 1. simpl fst.
    unfold range. destruct (Z.to_nat (nodesInLayer t)) as [| n] eqn:En; [lia |].
    simpl seq. simpl for_each. unfold mbind at 1, M_bind at 1.
    unfold mbind at 1, M_bind at 1, this at 1. simpl fst.
    unfold mbind at 1, M_bind at 1, of_result at 1, index_list at 1.
    by rewrite Hnone.
Qed.

Lemma stepGeneration_short_layer_witness :
  stepGeneration [1] 0
    (mkGradientNetwork [[0%nat]] 2 1 10 0.1 1, sample_world)
  = (Raise IndexError,
     (mkGradientNetwork [[0%nat]] 2 1 10 0.1 1,
      gradient_call [1] (0 / IZR 1) 0.1 sample_world 0%nat)).
Proof.
  apply (proj1 (stepGeneration_short_layer
                  (mkGradientNetwork [[0%nat]] 2 1 10 0.1 1) sample_world [1] 0)
               [0%nat]).
  - reflexivity.
  - simpl. lia.
  - simpl. lia.
  - apply NoDup_singleton.
  - intros a Ha. apply list_elem_of_singleton in Ha as ->.
    exists (mkNode 1 [0] [0] [] 1 0). split; [reflexivity |].
    split; [split; reflexivity |].
    intros i _ Hi. simpl in Hi. assert (i = 0%nat) as -> by lia. simpl.
    apply helper_in_range_small; [lia | lra | lra].
Defined.

(** X20. A trainer constructed with [numLayers = 0] has [size = 0], and
    with [size = 0] a call of [stepGeneration] that has a unit to visit
    raises [ZeroDivisionError] when it computes [goal / size], before any
    unit is touched. *)
Theorem stepGeneration_zero_size (t : GradientNetwork) (w : world)
    (inputs : list R) (goal : R) (layer : list addr) (node : addr) :
  nodes t !! 0%nat = Some layer -> layer !! 0%nat = Some node ->
  (0 < nodesInLayer t)%Z -> size t = 0%Z ->
  stepGeneration inputs goal (t, w) = (Raise ZeroDivisionError, (t, w))
  /\ forall nodes0 width0 value0 nodesInLayer maxIter learnRate,
       size (GradientNetwork_init nodes0 width0 value0 nodesInLayer 0 maxIter learnRate)
       = 0%Z.
Proof.
  intros Hlayer Hnode Hpos Hsize. split.
  - unfold stepGeneration, mbind at 1, M_bind at 1, this at 1. simpl fst.
    unfold range. destruct (Z.to_nat (nodesInLayer t)) as [| n] eqn:En; [lia |].
    simpl seq. simpl for_each. unfold mbind at 1, M_bind at 1.
    unfold mbind at 1, M_bind at 1, this at 1. simpl fst.
    unfold mbind at 1, M_bind at 1, of_result at 1, index_list at 1. rewrite Hlayer.
    unfold mbind at 1, M_bind at 1, of_result at 1, index_list at 1. rewrite Hnode.
    unfold mbind at 1, M_bind at 1, of_result at 1.
    by rewrite Hsize, pydiv_zero.
  - intros. simpl. lia.
Qed.

Lemma stepGeneration_zero_size_witness :
  stepGeneration [1] 3
    (GradientNetwork_init [[0%nat]] 1 0 1 0 10 0.1, sample_world)
  = (Raise ZeroDivisionError,
     (GradientNetwork_init [[0%nat]] 1 0 1 0 10 0.1, sample_world)).
Proof.
  apply (proj1 (stepGeneration_zero_size
                  (GradientNetwork_init [[0%nat]] 1 0 1 0 10 0.1) sample_world
                  [1] 3 [0%nat] 0%nat eq_refl eq_refl eq_refl eq_refl)).
Defined.
